(** * DeepRobots: the reduced-order swimmer model

    A shallow embedding of [Robots/HoneySwimmer_v2.py] (class
    [SwimmingRobot]) and of the two numeric helpers of
    [OpenAiGym/Deep-Robot/Deep_Robot/envs/DeepRobot_env_Discrete.py]
    (class [DeepRobot]) that the specification talks about.

    Conventions of the embedding.
    - Python floats are idealised as real numbers ([R]); [math.pi] is [PI].
    - A method of a class is a computation in a state-and-exception monad
      over the record of the object's attributes: a raised exception keeps
      the attributes written before the [raise], as the Python object does.
    - [scipy.integrate.odeint] is a library outside the repository: the
      methods are parameterised by it, and an explicit Euler scheme on the
      same sampling grid is provided as one concrete solver. *)

From Stdlib Require Import Reals Lra Lia ZArith String List Bool.
Import ListNotations.
Open Scope R_scope.

(** ** Python values and exceptions *)

Module Py.

(** [Exception(msg.format(x=x))] and the built-in [ZeroDivisionError]. *)
Inductive exn : Type :=
| Exception (msg : string) (x : R)
| ZeroDivisionError.

(** Outcome of a pure expression that may raise. *)
Inductive result (A : Type) : Type :=
| Ok (a : A)
| Err (e : exn).
Arguments Ok {A} a.
Arguments Err {A} e.

(** [x / y] on floats. *)
Definition truediv (x y : R) : result R :=
  if Req_dec_T y 0 then Err ZeroDivisionError else Ok (x / y).

(** [math.floor]. *)
Definition math_floor (x : R) : Z := Zfloor x.

(** [x % m] on floats, for a divisor [m <> 0]: the result takes the sign
    of the divisor. *)
Definition mod_ (x m : R) : R := x - m * IZR (Zfloor (x / m)).

(** [abs], [min] on floats. *)
Definition abs (x : R) : R := Rabs x.
Definition min (x y : R) : R := if Rlt_dec y x then y else x.

(** [random.uniform(a, b)], as [a + (b - a) * random()] where [u] is the
    value drawn by [random()], a number of [[0, 1)]. *)
Definition uniform (a b u : R) : R := a + (b - a) * u.

(** Outcome of a method call on an object with attributes [S]. *)
Inductive Res (S A : Type) : Type :=
| Done (a : A) (s : S)
| Raised (e : exn) (s : S).
Arguments Done {S A} a s.
Arguments Raised {S A} e s.

Definition method (S A : Type) : Type := S -> Res S A.

Definition ret {S A} (a : A) : method S A := fun s => Done a s.

Definition bind {S A B} (m : method S A) (k : A -> method S B) : method S B :=
  fun s => match m s with
           | Done a s' => k a s'
           | Raised e s' => Raised e s'
           end.

Definition raise {S A} (e : exn) : method S A := fun s => Raised e s.

Definition get {S} : method S S := fun s => Done s s.

Definition modify {S} (f : S -> S) : method S unit := fun s => Done tt (f s).

Definition lift {S A} (x : result A) : method S A :=
  match x with
  | Ok a => ret a
  | Err e => raise e
  end.

(** The attributes an outcome leaves on the object. *)
Definition final {S A} (x : Res S A) : S :=
  match x with
  | Done _ s => s
  | Raised _ s => s
  end.

End Py.

Import Py.

Declare Scope py_scope.
Delimit Scope py_scope with py.
Notation "x <- m ;; k" := (bind m (fun x => k))
(at level 61, m at next level, right associativity) : py_scope.
Notation "m ;;; k" := (bind m (fun _ => k))
(at level 61, right associativity) : py_scope.
Open Scope py_scope.

(** ** [DeepRobot_env_Discrete.py] *)

Module DeepRobot.

(** Scalar attributes set by [__init__]; the plotting lists and the gym
    spaces play no part in the two helpers below. *)
Record t : Type := mk {
  x : R;
  y : R;
  theta : R;
  theta_displacement : R;
  a1dot : R;
  a2dot : R;
  t_interval : R;
  timestep : R;
  R_ : R
}.

Definition set_theta (v : R) (s : t) : t :=
  mk (x s) (y s) v (theta_displacement s) (a1dot s) (a2dot s)
     (t_interval s) (timestep s) (R_ s).

(** [discretize(val, interval)], a static method. *)
Definition discretize (val interval : R) : result R :=
  match truediv val interval with
  | Err e => Err e
  | Ok quotient =>
      let floor := math_floor quotient in
      let diff := quotient - IZR floor in
      if Rge_dec diff 0.5
      then Ok (IZR (floor + 1) * interval)
      else Ok (IZR floor * interval)
  end.

(** [enforce_theta_range(self)]. *)
Definition enforce_theta_range : method t unit :=
  self <- get ;;
  let angle := theta self in
  let angle :=
    if Rgt_dec angle PI then
      let angle := mod_ angle (2 * PI) in
      if Rgt_dec angle PI then angle - 2 * PI else angle
    else if Rlt_dec angle (- PI) then
      let angle := mod_ angle (-2 * PI) in
      if Rlt_dec angle (- PI) then angle + 2 * PI else angle
    else angle in
  modify (set_theta angle).

End DeepRobot.

(** ** [HoneySwimmer_v2.py] *)

Module SwimmingRobot.

(** The attributes of a [SwimmingRobot] object, as [__init__] creates
    them. *)
Record t : Type := mk {
  body_x : R;
  x : R;
  y : R;
  theta : R;
  a1 : R;
  a2 : R;
  a1dot : R;
  a2dot : R;
  time : R;
  t_interval : R;
  timestep : R;
  L : R;
  k : R;
  state : R * R
}.

(** [__init__(self, body_x, x, y, theta, a1, a2, link_length, k,
    t_interval, timestep)]. *)
Definition init (body_x x y theta a1 a2 link_length k t_interval timestep : R)
  : t :=
  mk body_x x y theta a1 a2 0 0 0 t_interval timestep link_length k (a1, a2).

(** The object built by [SwimmingRobot()], every argument at its default. *)
Definition default : t := init 0 0 0 0 (- PI / 4) (PI / 4) 2 1 0.25 1.

(** Attribute assignments [self.f = v]. *)
Definition set_body_x (v : R) (s : t) : t :=
  mk v (x s) (y s) (theta s) (a1 s) (a2 s) (a1dot s) (a2dot s) (time s)
     (t_interval s) (timestep s) (L s) (k s) (state s).
Definition set_x (v : R) (s : t) : t :=
  mk (body_x s) v (y s) (theta s) (a1 s) (a2 s) (a1dot s) (a2dot s) (time s)
     (t_interval s) (timestep s) (L s) (k s) (state s).
Definition set_y (v : R) (s : t) : t :=
  mk (body_x s) (x s) v (theta s) (a1 s) (a2 s) (a1dot s) (a2dot s) (time s)
     (t_interval s) (timestep s) (L s) (k s) (state s).
Definition set_theta (v : R) (s : t) : t :=
  mk (body_x s) (x s) (y s) v (a1 s) (a2 s) (a1dot s) (a2dot s) (time s)
     (t_interval s) (timestep s) (L s) (k s) (state s).
Definition set_a1 (v : R) (s : t) : t :=
  mk (body_x s) (x s) (y s) (theta s) v (a2 s) (a1dot s) (a2dot s) (time s)
     (t_interval s) (timestep s) (L s) (k s) (state s).
Definition set_a2 (v : R) (s : t) : t :=
  mk (body_x s) (x s) (y s) (theta s) (a1 s) v (a1dot s) (a2dot s) (time s)
     (t_interval s) (timestep s) (L s) (k s) (state s).
Definition set_a1dot (v : R) (s : t) : t :=
  mk (body_x s) (x s) (y s) (theta s) (a1 s) (a2 s) v (a2dot s) (time s)
     (t_interval s) (timestep s) (L s) (k s) (state s).
Definition set_a2dot (v : R) (s : t) : t :=
  mk (body_x s) (x s) (y s) (theta s) (a1 s) (a2 s) (a1dot s) v (time s)
     (t_interval s) (timestep s) (L s) (k s) (state s).
Definition set_timestep (v : R) (s : t) : t :=
  mk (body_x s) (x s) (y s) (theta s) (a1 s) (a2 s) (a1dot s) (a2dot s)
     (time s) (t_interval s) v (L s) (k s) (state s).
Definition set_state_attr (v : R * R) (s : t) : t :=
  mk (body_x s) (x s) (y s) (theta s) (a1 s) (a2 s) (a1dot s) (a2dot s)
     (time s) (t_interval s) (timestep s) (L s) (k s) v.

(** [set_state(self, a1, a2)]. *)
Definition set_state (a1 a2 : R) : method t unit :=
  modify (set_a1 a1) ;;; modify (set_a2 a2) ;;;
  modify (set_state_attr (a1, a2)).

(** [get_position(self)]. *)
Definition get_position : method t (R * R) :=
  self <- get ;; ret (x self, y self).

(** [randomize_state(self, enforce_opposite_angle_signs)]; [u1] and [u2]
    are the two numbers of [[0, 1)] that the two calls of
    [random.uniform] draw, in this order. *)
Definition randomize_state (enforce_opposite_angle_signs : bool) (u1 u2 : R)
  : method t (R * R) :=
  modify (set_a1 (uniform (- PI / 2) (PI / 2) u1)) ;;;
  modify (set_a2 (uniform (- PI / 2) (PI / 2) u2)) ;;;
  self <- get ;;
  modify (set_state_attr (a1 self, a2 self)) ;;;
  self <- get ;;
  ret (state self).

(** A state vector [[body_x, x, y, theta, a1, a2]] of the integration. *)
Definition vec : Type := (R * R * R * R * R * R)%type.

Definition vec_a1 (v : vec) : R := let '(_, _, _, _, a, _) := v in a.
Definition vec_a2 (v : vec) : R := let '(_, _, _, _, _, a) := v in a.
Definition vec_theta (v : vec) : R := let '(_, _, _, th, _, _) := v in th.

(** [TeLg(theta)], a 3 x 3 array given by its rows. *)
Definition TeLg (theta : R) : (R * R * R) * (R * R * R) * (R * R * R) :=
  ((cos theta, - sin theta, 0),
   (sin theta, cos theta, 0),
   (0, 0, 1)).

(** The six entries of the array returned by [J(self, a1, a2)], where [L]
    is [self.L]; [Jij] is the entry of row [i] and column [j]. *)
Definition J11 (L a1 a2 : R) : R :=
  4*L*(72*sin(a1) + 5*sin(2*a1) - 30*sin(a2) - 7*sin(2*a2) + 6*sin(a1 - 2*a2) + 36*sin(a1 -
  a2) + 12*sin(a1 + a2) + 2*sin(a1 + 2*a2) + 2*sin(2*a1 + a2) + sin(2*a1 +
  2*a2))/(3*(-136*cos(a1) - 14*cos(2*a1) - 136*cos(a2) - 14*cos(2*a2) + 4*cos(a1 - 2*a2) +
  8*cos(a1 - a2) - 56*cos(a1 + a2) - 12*cos(a1 + 2*a2) + cos(2*a1 - 2*a2) + 4*cos(2*a1 - a2)
  - 12*cos(2*a1 + a2) - 3*cos(2*a1 + 2*a2) - 282)).

Definition J12 (L a1 a2 : R) : R :=
  4*L*(-30*sin(a1) - 7*sin(2*a1) + 72*sin(a2) + 5*sin(2*a2) - 36*sin(a1 - a2) + 12*sin(a1 +
  a2) + 2*sin(a1 + 2*a2) - 6*sin(2*a1 - a2) + 2*sin(2*a1 + a2) + sin(2*a1 +
  2*a2))/(408*cos(a1) + 42*cos(2*a1) + 408*cos(a2) + 42*cos(2*a2) - 12*cos(a1 - 2*a2) -
  24*cos(a1 - a2) + 168*cos(a1 + a2) + 36*cos(a1 + 2*a2) - 3*cos(2*a1 - 2*a2) - 12*cos(2*a1
  - a2) + 36*cos(2*a1 + a2) + 9*cos(2*a1 + 2*a2) + 846).

Definition J21 (L a1 a2 : R) : R :=
  4*L*(-32*(-cos(2*a1) + 1)^2 - 56*(-cos(2*a2) + 1)^2*cos(a1) + 12*(-cos(2*a2) +
  1)^2*cos(2*a1) - 52*(-cos(2*a2) + 1)^2 + 3596*cos(a1) + 102*cos(2*a1) - 236*cos(3*a1) +
  1312*cos(a2) + 144*cos(2*a2) - 88*cos(3*a2) + 6*cos(4*a2) - 4*cos(a1 - 4*a2) - 108*cos(a1
  - 3*a2) - 14*cos(a1 - 2*a2) + 1512*cos(a1 - a2) + 1512*cos(a1 + a2) - 150*cos(a1 + 2*a2) -
  108*cos(a1 + 3*a2) + 4*cos(a1 + 4*a2) - 3*cos(2*a1 - 4*a2) - 24*cos(2*a1 - 2*a2) -
  96*cos(2*a1 - a2) + 40*cos(2*a1 + a2) - 24*cos(2*a1 + 2*a2) - 8*cos(2*a1 + 3*a2) -
  3*cos(2*a1 + 4*a2) - 18*cos(3*a1 - 2*a2) - 108*cos(3*a1 - a2) - 108*cos(3*a1 + a2) -
  10*cos(3*a1 + 2*a2) - 8*cos(4*a1 + a2) + 666)/(3*(-8*(-cos(2*a1) + 1)^2*(-cos(2*a2) + 1)^2
  + 64*(-cos(2*a1) + 1)^2*cos(a2) + 16*(-cos(2*a1) + 1)^2*cos(2*a2) + 112*(-cos(2*a1) + 1)^2
  + 64*(-cos(2*a2) + 1)^2*cos(a1) + 16*(-cos(2*a2) + 1)^2*cos(2*a1) + 112*(-cos(2*a2) + 1)^2
  - 8224*cos(a1) + 1544*cos(2*a1) + 544*cos(3*a1) + 6*cos(4*a1) - 8224*cos(a2) +
  1544*cos(2*a2) + 544*cos(3*a2) + 6*cos(4*a2) - 32*cos(a1 - 4*a2) - 32*cos(a1 - 3*a2) +
  912*cos(a1 - 2*a2) + 960*cos(a1 - a2) - 3648*cos(a1 + a2) - 176*cos(a1 + 2*a2) +
  224*cos(a1 + 3*a2) + 32*cos(a1 + 4*a2) - 12*cos(2*a1 - 4*a2) - 16*cos(2*a1 - 3*a2) +
  224*cos(2*a1 - 2*a2) + 912*cos(2*a1 - a2) - 176*cos(2*a1 + a2) - 32*cos(2*a1 + 2*a2) +
  48*cos(2*a1 + 3*a2) + 4*cos(2*a1 + 4*a2) - 16*cos(3*a1 - 2*a2) - 32*cos(3*a1 - a2) +
  224*cos(3*a1 + a2) + 48*cos(3*a1 + 2*a2) + cos(4*a1 - 4*a2) - 12*cos(4*a1 - 2*a2) -
  32*cos(4*a1 - a2) + 32*cos(4*a1 + a2) + 4*cos(4*a1 + 2*a2) + cos(4*a1 + 4*a2) - 18254)).

Definition J22 (L a1 a2 : R) : R :=
  4*L*(-56*(-cos(2*a1) + 1)^2*cos(a2) + 12*(-cos(2*a1) + 1)^2*cos(2*a2) - 52*(-cos(2*a1) +
  1)^2 - 32*(-cos(2*a2) + 1)^2 + 1312*cos(a1) + 144*cos(2*a1) - 88*cos(3*a1) + 6*cos(4*a1) +
  3596*cos(a2) + 102*cos(2*a2) - 236*cos(3*a2) - 108*cos(a1 - 3*a2) - 96*cos(a1 - 2*a2) +
  1512*cos(a1 - a2) + 1512*cos(a1 + a2) + 40*cos(a1 + 2*a2) - 108*cos(a1 + 3*a2) - 8*cos(a1
  + 4*a2) - 18*cos(2*a1 - 3*a2) - 24*cos(2*a1 - 2*a2) - 14*cos(2*a1 - a2) - 150*cos(2*a1 +
  a2) - 24*cos(2*a1 + 2*a2) - 10*cos(2*a1 + 3*a2) - 108*cos(3*a1 - a2) - 108*cos(3*a1 + a2)
  - 8*cos(3*a1 + 2*a2) - 3*cos(4*a1 - 2*a2) - 4*cos(4*a1 - a2) + 4*cos(4*a1 + a2) -
  3*cos(4*a1 + 2*a2) + 666)/(3*(-8*(-cos(2*a1) + 1)^2*(-cos(2*a2) + 1)^2 + 64*(-cos(2*a1) +
  1)^2*cos(a2) + 16*(-cos(2*a1) + 1)^2*cos(2*a2) + 112*(-cos(2*a1) + 1)^2 + 64*(-cos(2*a2) +
  1)^2*cos(a1) + 16*(-cos(2*a2) + 1)^2*cos(2*a1) + 112*(-cos(2*a2) + 1)^2 - 8224*cos(a1) +
  1544*cos(2*a1) + 544*cos(3*a1) + 6*cos(4*a1) - 8224*cos(a2) + 1544*cos(2*a2) +
  544*cos(3*a2) + 6*cos(4*a2) - 32*cos(a1 - 4*a2) - 32*cos(a1 - 3*a2) + 912*cos(a1 - 2*a2) +
  960*cos(a1 - a2) - 3648*cos(a1 + a2) - 176*cos(a1 + 2*a2) + 224*cos(a1 + 3*a2) + 32*cos(a1
  + 4*a2) - 12*cos(2*a1 - 4*a2) - 16*cos(2*a1 - 3*a2) + 224*cos(2*a1 - 2*a2) + 912*cos(2*a1
  - a2) - 176*cos(2*a1 + a2) - 32*cos(2*a1 + 2*a2) + 48*cos(2*a1 + 3*a2) + 4*cos(2*a1 +
  4*a2) - 16*cos(3*a1 - 2*a2) - 32*cos(3*a1 - a2) + 224*cos(3*a1 + a2) + 48*cos(3*a1 + 2*a2)
  + cos(4*a1 - 4*a2) - 12*cos(4*a1 - 2*a2) - 32*cos(4*a1 - a2) + 32*cos(4*a1 + a2) +
  4*cos(4*a1 + 2*a2) + cos(4*a1 + 4*a2) - 18254)).

Definition J31 (L a1 a2 : R) : R :=
  2*(-3*(-2*(sin(2*a1) - sin(2*a2))*(-7*cos(a1) - 2*cos(2*a1) + 7*cos(a2) + 2*cos(2*a2) +
  cos(a1 + 2*a2) - cos(2*a1 + a2)) + (4*sin(a1) + sin(2*a1) + 4*sin(a2) +
  sin(2*a2))*(cos(2*a1) + cos(2*a2) + cos(2*a1 + 2*a2) - 39))*sin(a1) - (3*cos(a1) +
  4)*(cos(2*a1) + cos(2*a2) - 8)*(cos(2*a1) + cos(2*a2) + cos(2*a1 + 2*a2) - 39) +
  6*(cos(2*a1) + cos(2*a2) - 8)*(-7*cos(a1) - 2*cos(2*a1) + 7*cos(a2) + 2*cos(2*a2) + cos(a1
  + 2*a2) - cos(2*a1 + a2))*cos(a1))/(3*(-(cos(2*a1) + cos(2*a2) + cos(2*a1 + 2*a2) -
  39)*(-28*cos(a1) + cos(2*a1) - 28*cos(a2) + cos(2*a2) + 4*cos(a1 - 2*a2) + 8*cos(a1 - a2)
  - 8*cos(a1 + a2) + cos(2*a1 - 2*a2) + 4*cos(2*a1 - a2) - 63) + 4*(-7*cos(a1) - 2*cos(2*a1)
  + 7*cos(a2) + 2*cos(2*a2) + cos(a1 + 2*a2) - cos(2*a1 + a2))^2)).

Definition J32 (L a1 a2 : R) : R :=
  2*(3*(-2*(sin(2*a1) - sin(2*a2))*(-7*cos(a1) - 2*cos(2*a1) + 7*cos(a2) + 2*cos(2*a2) +
  cos(a1 + 2*a2) - cos(2*a1 + a2)) + (4*sin(a1) + sin(2*a1) + 4*sin(a2) +
  sin(2*a2))*(cos(2*a1) + cos(2*a2) + cos(2*a1 + 2*a2) - 39))*sin(a2) + (3*cos(a2) +
  4)*(cos(2*a1) + cos(2*a2) - 8)*(cos(2*a1) + cos(2*a2) + cos(2*a1 + 2*a2) - 39) +
  6*(cos(2*a1) + cos(2*a2) - 8)*(-7*cos(a1) - 2*cos(2*a1) + 7*cos(a2) + 2*cos(2*a2) + cos(a1
  + 2*a2) - cos(2*a1 + a2))*cos(a2))/(3*(-(cos(2*a1) + cos(2*a2) + cos(2*a1 + 2*a2) -
  39)*(-28*cos(a1) + cos(2*a1) - 28*cos(a2) + cos(2*a2) + 4*cos(a1 - 2*a2) + 8*cos(a1 - a2)
  - 8*cos(a1 + a2) + cos(2*a1 - 2*a2) + 4*cos(2*a1 - a2) - 63) + 4*(-7*cos(a1) - 2*cos(2*a1)
  + 7*cos(a2) + 2*cos(2*a2) + cos(a1 + 2*a2) - cos(2*a1 + a2))^2)).

(** [J(self, a1, a2)], a 3 x 2 array given by its rows. *)
Definition J (self : t) (a1 a2 : R) : (R * R) * (R * R) * (R * R) :=
  ((J11 (L self) a1 a2, J12 (L self) a1 a2),
   (J21 (L self) a1 a2, J22 (L self) a1 a2),
   (J31 (L self) a1 a2, J32 (L self) a1 a2)).

(** The products [A @ v] of a 3 x 2 and of a 3 x 3 array with a column. *)
Definition matmul32 (A : (R * R) * (R * R) * (R * R)) (v : R * R)
  : R * R * R :=
  let '((a11, a12), (a21, a22), (a31, a32)) := A in
  let '(v1, v2) := v in
  (a11 * v1 + a12 * v2, a21 * v1 + a22 * v2, a31 * v1 + a32 * v2).

Definition matmul33 (A : (R * R * R) * (R * R * R) * (R * R * R))
  (v : R * R * R) : R * R * R :=
  let '((a11, a12, a13), (a21, a22, a23), (a31, a32, a33)) := A in
  let '(v1, v2, v3) := v in
  (a11 * v1 + a12 * v2 + a13 * v3,
   a21 * v1 + a22 * v2 + a23 * v3,
   a31 * v1 + a32 * v2 + a33 * v3).

(** [M(self, theta, a1, a2, da1, da2)]. *)
Definition M (self : t) (theta a1 a2 da1 da2 : R) : vec :=
  let da := (da1, da2) in
  let f_body := matmul32 (J self a1 a2) da in
  let f := matmul33 (TeLg theta) f_body in
  let '(body_xdot, _, _) := f_body in
  let '(xdot, ydot, thetadot) := f in
  (body_xdot, xdot, ydot, thetadot, da1, da2).

(** [robot(self, v, t, da1, da2)], the right-hand side handed to
    [odeint]. *)
Definition robot (self : t) (v : vec) (t : R) (da1 da2 : R) : vec :=
  let '(_, _, _, theta, a1, a2) := v in
  M self theta a1 a2 da1 da2.

(** [np.linspace(start, stop, num)]. *)
Definition linspace (start stop : R) (num : nat) : list R :=
  map (fun i => start + INR i * ((stop - start) / INR (num - 1)))
      (seq 0 num).

(** [enforce_angle_range(self, angle_name)]. *)
Definition enforce_angle_range (angle_name : string) : method t unit :=
  self <- get ;;
  let angle :=
    if String.eqb angle_name "theta" then theta self
    else if String.eqb angle_name "a1" then a1 self
    else a2 self in
  let angle :=
    if Rgt_dec angle PI then
      let angle := mod_ angle (2 * PI) in
      if Rgt_dec angle PI then angle - 2 * PI else angle
    else if Rlt_dec angle (- PI) then
      let angle := mod_ angle (-2 * PI) in
      if Rlt_dec angle (- PI) then angle + 2 * PI else angle
    else angle in
  if String.eqb angle_name "theta" then modify (set_theta angle)
  else if String.eqb angle_name "a1" then modify (set_a1 angle)
  else if String.eqb angle_name "a2" then modify (set_a2 angle)
  else ret tt.

(** [round_angles_to_limits(self, tolerance)]. *)
Definition round_angles_to_limits (tolerance : R) : method t unit :=
  self <- get ;;
  (if Rlt_dec (abs (a1 self - PI / 2)) tolerance
   then modify (set_a1 (PI / 2))
   else if Rlt_dec (abs (a1 self + PI / 2)) tolerance
   then modify (set_a1 (- PI / 2))
   else ret tt) ;;;
  self <- get ;;
  (if Rlt_dec (abs (a2 self + PI / 2)) tolerance
   then modify (set_a2 (- PI / 2))
   else if Rlt_dec (abs (a2 self - PI / 2)) tolerance
   then modify (set_a2 (PI / 2))
   else ret tt).

(** [check_angles(self)]. *)
Definition check_angles : method t unit :=
  self <- get ;;
  (if Rlt_dec (a1 self) (- PI / 2) then
     raise (Exception "a1 out of limit: {x}" (a1 self))
   else if Rgt_dec (a1 self) (PI / 2) then
     raise (Exception "a1 out of limit: {x}" (a1 self))
   else ret tt) ;;;
  self <- get ;;
  (if Rlt_dec (a2 self) (- PI / 2) then
     raise (Exception "a2 out of limit: {x}" (a2 self))
   else if Rgt_dec (a2 self) (PI / 2) then
     raise (Exception "a2 out of limit: {x}" (a2 self))
   else ret tt).

(** [update_alpha_dots(self, a1dot1, a2dot1, t1, a1dot2, a2dot2, t2)];
    [t2 = None] is the default of the keyword argument. *)
Definition update_alpha_dots (a1dot1 a2dot1 t1 a1dot2 a2dot2 : R)
  (t2 : option R) : method t unit :=
  let c3 := 1 in
  let t2 := match t2 with None => 0 | Some t2 => t2 end in
  self <- get ;;
  c3 <- (if Rlt_dec (t1 + t2) (t_interval self + timestep self)
         then lift (truediv (t1 + t2) (t_interval self * timestep self))
         else ret c3) ;;
  c12 <- (if Req_dec_T (t1 + t2) 0 then ret (0, 0)
          else c1 <- lift (truediv t1 (t1 + t2)) ;;
               c2 <- lift (truediv t2 (t1 + t2)) ;;
               ret (c1, c2)) ;;
  let '(c1, c2) := c12 in
  modify (set_a1dot ((c1 * a1dot1 + c2 * a1dot2) * c3)) ;;;
  modify (set_a2dot ((c1 * a2dot1 + c2 * a2dot2) * c3)).

(** [update_params(self, body_x, x, y, theta, a1, a2,
    enforce_angle_limits)]. *)
Definition update_params (v : vec) (enforce_angle_limits : bool)
  : method t unit :=
  let '(body_x', x', y', theta', a1', a2') := v in
  modify (set_body_x body_x') ;;;
  modify (set_x x') ;;;
  modify (set_y y') ;;;
  modify (set_theta theta') ;;;
  enforce_angle_range "theta" ;;;
  modify (set_a1 a1') ;;;
  (if negb enforce_angle_limits then enforce_angle_range "a1" else ret tt) ;;;
  modify (set_a2 a2') ;;;
  (if negb enforce_angle_limits then enforce_angle_range "a2" else ret tt) ;;;
  round_angles_to_limits 0.000000001.

(** The block of [move] that sets [a1_t] (resp. [a2_t]): the nominal
    duration [t], replaced when the endpoint [a1'] (resp. [a2']) of the
    joint leaves the limits. *)
Definition crossing_time_a1 (self : t) (a1' a1dot t : R) : result R :=
  if Rlt_dec a1' (- PI / 2) then truediv (- PI / 2 - a1 self) a1dot
  else if Rgt_dec a1' (PI / 2) then truediv (0 - a1 self) a1dot
  else Ok t.

Definition crossing_time_a2 (self : t) (a2' a2dot t : R) : result R :=
  if Rlt_dec a2' (- PI / 2) then truediv (0 - a2 self) a2dot
  else if Rgt_dec a2' (PI / 2) then truediv (PI / 2 - a2 self) a2dot
  else Ok t.

Section Solver.

(** [scipy.integrate.odeint(func, y0, t, args)]: one row per sample time. *)
Variable odeint :
  (vec -> R -> R -> R -> vec) -> vec -> list R -> R * R -> list vec.

(** [perform_integration(self, action, t_interval)]; [sol[-1]] is the last
    row of the solution. *)
Definition perform_integration (action : R * R) (t_interval : R)
  : method t vec :=
  self <- get ;;
  if Req_dec_T t_interval 0 then
    ret (body_x self, x self, y self, theta self, a1 self, a2 self)
  else
    let '(a1dot, a2dot) := action in
    let v0 := (body_x self, x self, y self, theta self, a1 self, a2 self) in
    let t := linspace 0 t_interval 11 in
    let sol := odeint (robot self) v0 t (a1dot, a2dot) in
    ret (last sol v0).

(** [move(self, action, timestep, enforce_angle_limits)]. *)
Definition move (action : R * R) (timestep' : R) (enforce_angle_limits : bool)
  : method t (R * R) :=
  modify (set_timestep timestep') ;;;
  (if enforce_angle_limits then check_angles else ret tt) ;;;
  let '(a1dot, a2dot) := action in
  self <- get ;;
  let t := timestep self * t_interval self in
  let a1' := a1 self + a1dot * t in
  let a2' := a2 self + a2dot * t in
  (if enforce_angle_limits then
     a1_t <- lift (crossing_time_a1 self a1' a1dot t) ;;
     a2_t <- lift (crossing_time_a2 self a2' a2dot t) ;;
     if Rgt_dec (abs (a1_t - a2_t)) 0.0000001 then
       let t1 := min a1_t a2_t in
       v <- perform_integration action t1 ;;
       update_params v true ;;;
       if Rgt_dec a2_t a1_t then
         let t2 := a2_t - a1_t in
         let action := (0, a2dot) in
         v <- perform_integration action t2 ;;
         update_params v true ;;;
         update_alpha_dots a1dot a2dot t1 0 a2dot (Some t2)
       else
         let t2 := a1_t - a2_t in
         let action := (a1dot, 0) in
         v <- perform_integration action t2 ;;
         update_params v true ;;;
         update_alpha_dots a1dot a2dot t1 a1dot 0 (Some t2)
     else
       let t := if Req_dec_T t a1_t then t else a1_t in
       v <- perform_integration action t ;;
       update_params v true ;;;
       update_alpha_dots a1dot a2dot t 0 0 None
   else
     v <- perform_integration action t ;;
     update_params v false ;;;
     update_alpha_dots a1dot a2dot t 0 0 None) ;;;
  self <- get ;;
  modify (set_state_attr (a1 self, a2 self)) ;;;
  self <- get ;;
  ret (state self).

(** A call of [move]: the action, the timestep count and the flag. *)
Definition call : Type := ((R * R) * R * bool)%type.

(** The outcomes of a sequence of [move] calls on one object, in order; a
    caller that catches an exception goes on with the object as the failed
    call left it. *)
Fixpoint moves (calls : list call) (self : t) : list (Res t (R * R)) :=
  match calls with
  | [] => []
  | (action, timestep', enforce_angle_limits) :: calls' =>
      let out := move action timestep' enforce_angle_limits self in
      out :: moves calls' (final out)
  end.

End Solver.

(** The spec's wording of the duration one limit-enforced or free [move]
    integrates: the sum [t1 + t2] of the two sub-step durations when the
    crossing times differ by more than the tolerance, the (possibly
    shortened) single duration otherwise. *)
Definition integrated_duration (self : t) (action : R * R) (timestep' : R)
  (enforce_angle_limits : bool) : result R :=
  let '(a1dot, a2dot) := action in
  let t := timestep' * t_interval self in
  if enforce_angle_limits then
    match crossing_time_a1 self (a1 self + a1dot * t) a1dot t with
    | Err e => Err e
    | Ok a1_t =>
        match crossing_time_a2 self (a2 self + a2dot * t) a2dot t with
        | Err e => Err e
        | Ok a2_t =>
            if Rgt_dec (abs (a1_t - a2_t)) 0.0000001
            then Ok (min a1_t a2_t + abs (a1_t - a2_t))
            else Ok a1_t
        end
    end
  else Ok t.

(** ** A concrete solver

    Explicit Euler on the sample times: row [i + 1] is row [i] advanced by
    the right-hand side at row [i] over the gap between the two times. *)

Definition vec_step (h : R) (y d : vec) : vec :=
  let '(y1, y2, y3, y4, y5, y6) := y in
  let '(d1, d2, d3, d4, d5, d6) := d in
  (y1 + h * d1, y2 + h * d2, y3 + h * d3, y4 + h * d4, y5 + h * d5,
   y6 + h * d6).

Fixpoint euler_rows (func : vec -> R -> R -> R -> vec) (y : vec) (t0 : R)
  (ts : list R) (args : R * R) : list vec :=
  match ts with
  | [] => []
  | t1 :: ts' =>
      let y' := vec_step (t1 - t0) y (func y t0 (fst args) (snd args)) in
      y' :: euler_rows func y' t1 ts' args
  end.

Definition euler_odeint (func : vec -> R -> R -> R -> vec) (y0 : vec)
  (ts : list R) (args : R * R) : list vec :=
  match ts with
  | [] => []
  | t0 :: ts' => y0 :: euler_rows func y0 t0 ts' args
  end.

End SwimmingRobot.

(** ** [DeepRobot_env_Discrete.py]: the velocity field

    The kinematic methods of class [DeepRobot]; they read the attribute
    [self.R] only. *)

Module DeepRobotKinematics.

(** [TeLg(theta)], a static method with the body of
    [SwimmingRobot.TeLg]. *)
Definition TeLg (theta : R) : (R * R * R) * (R * R * R) * (R * R * R) :=
  ((cos theta, - sin theta, 0),
   (sin theta, cos theta, 0),
   (0, 0, 1)).

(** [D_inverse(self, a1, a2)]. *)
Definition D_inverse (self : DeepRobot.t) (a1 a2 : R) : result R :=
  match truediv 2 (DeepRobot.R_ self) with
  | Err e => Err e
  | Ok q =>
      let D := q * (- sin a1 - sin (a1 - a2) + sin a2) in
      truediv 1 D
  end.

(** [A(self, a1, a2)], a 3 x 2 array given by its rows. *)
Definition A (self : DeepRobot.t) (a1 a2 : R)
  : result ((R * R) * (R * R) * (R * R)) :=
  match truediv 2 (DeepRobot.R_ self) with
  | Err e => Err e
  | Ok q31 =>
      match truediv 2 (DeepRobot.R_ self) with
      | Err e => Err e
      | Ok q32 =>
          Ok ((cos a1 + cos (a1 - a2), 1 + cos a1),
              (0, 0),
              (q31 * (sin a1 + sin (a1 - a2)), q32 * sin a1))
      end
  end.

(** [M(self, theta, a1, a2, da1, da2)]: the list
    [[xdot, ydot, thetadot, da1, da2]]. *)
Definition M (self : DeepRobot.t) (theta a1 a2 da1 da2 : R)
  : result (R * R * R * R * R) :=
  let da := (da1, da2) in
  match D_inverse self a1 a2 with
  | Err e => Err e
  | Ok d =>
      match A self a1 a2 with
      | Err e => Err e
      | Ok arr =>
          let '(f1, f2, f3) :=
            SwimmingRobot.matmul33 (TeLg theta)
              (SwimmingRobot.matmul32 arr da) in
          let '(xdot, ydot, thetadot) := (d * f1, d * f2, d * f3) in
          Ok (xdot, ydot, thetadot, da1, da2)
      end
  end.

(** [robot(self, v, t, da1, da2)]. *)
Definition robot (self : DeepRobot.t) (v : R * R * R * R * R) (t : R)
  (da1 da2 : R) : result (R * R * R * R * R) :=
  let '(_, _, theta, a1, a2) := v in
  M self theta a1 a2 da1 da2.

End DeepRobotKinematics.

(** * Vocabulary of the statements

    Definitions used to state and prove the properties: closed forms of
    what the methods compute, and the predicates the statements speak of. *)

Import SwimmingRobot.

(** The value that [enforce_theta_range] and [enforce_angle_range] store
    back for an attribute holding [angle]. *)
Definition wrapped (angle : R) : R :=
  if Rgt_dec angle PI then
    let angle := mod_ angle (2 * PI) in
    if Rgt_dec angle PI then angle - 2 * PI else angle
  else if Rlt_dec angle (- PI) then
    let angle := mod_ angle (-2 * PI) in
    if Rlt_dec angle (- PI) then angle + 2 * PI else angle
  else angle.

(** The attribute that [enforce_angle_range] reads for a name. *)
Definition attr (angle_name : string) (s : SwimmingRobot.t) : R :=
  if String.eqb angle_name "theta" then SwimmingRobot.theta s
  else if String.eqb angle_name "a1" then SwimmingRobot.a1 s
  else SwimmingRobot.a2 s.

(** The names of the three angles the routine is called with. *)
Definition angle_names : list string := ["theta"; "a1"; "a2"]%string.

(** What [round_angles_to_limits] makes of a first and of a second joint
    angle. *)
Definition snap_a1 (a : R) : R :=
  if Rlt_dec (Rabs (a - PI / 2)) 0.000000001 then PI / 2
  else if Rlt_dec (Rabs (a + PI / 2)) 0.000000001 then - PI / 2
  else a.

Definition snap_a2 (a : R) : R :=
  if Rlt_dec (Rabs (a + PI / 2)) 0.000000001 then - PI / 2
  else if Rlt_dec (Rabs (a - PI / 2)) 0.000000001 then PI / 2
  else a.

(** The attributes after [update_params] on the row [v]. *)
Definition committed (v : vec) (enforce_angle_limits : bool) (s : t) : t :=
  let '(body_x', x', y', theta', a1', a2') := v in
  mk body_x' x' y' (wrapped theta')
     (snap_a1 (if enforce_angle_limits then a1' else wrapped a1'))
     (snap_a2 (if enforce_angle_limits then a2' else wrapped a2'))
     (a1dot s) (a2dot s) (time s) (t_interval s) (timestep s) (L s) (k s)
     (state s).

(** The row [perform_integration] returns; the attributes stay as they
    are. *)
Definition integrated
  (odeint : (vec -> R -> R -> R -> vec) -> vec -> list R -> R * R -> list vec)
  (action : R * R) (t_interval : R) (s : t) : vec :=
  let v0 := (body_x s, x s, y s, theta s, a1 s, a2 s) in
  if Req_dec_T t_interval 0 then v0
  else last (odeint (robot s) v0 (linspace 0 t_interval 11) action) v0.

(** Both joint angles within the limits that [check_angles] tests. *)
Definition in_limits (s : t) : Prop :=
  (- PI / 2 <= a1 s <= PI / 2) /\ (- PI / 2 <= a2 s <= PI / 2).

(** Attributes that only [__init__] and the first line of [move] write. *)
Definition frame (s s' : t) : Prop :=
  time s' = time s /\ t_interval s' = t_interval s
  /\ timestep s' = timestep s /\ L s' = L s /\ k s' = k s.

(** What one call of [move] can leave behind.  A normal return follows a
    commit by [update_params] and the two velocity assignments; an
    [Exception] comes from [check_angles], before anything but [timestep]
    is written; a [ZeroDivisionError] can only come from the division by
    the nominal duration in [update_alpha_dots]. *)
Definition move_post (action : R * R) (timestep' : R) (enforce : bool)
  (s : t) (out : Res t (R * R)) : Prop :=
  match out with
  | Done st s' =>
      (enforce = true -> in_limits s)
      /\ st = state s'
      /\ exists v mid v1 v2,
          frame (set_timestep timestep' s) mid
          /\ s' = set_state_attr
                    (a1 (committed v enforce mid), a2 (committed v enforce mid))
                    (set_a2dot v2 (set_a1dot v1 (committed v enforce mid)))
  | Raised e s' =>
      (enforce = true /\ ~ in_limits s /\ s' = set_timestep timestep' s
       /\ exists msg v, e = Exception msg v)
      \/ (e = ZeroDivisionError /\ t_interval s * timestep' = 0
          /\ frame (set_timestep timestep' s) s'
          /\ (enforce = true -> in_limits s))
  end.

(** A solver is exact on the joint channels when the last row it returns
    for the right-hand side [robot], whose two joint components are the
    constants [da1] and [da2], holds the joint angles [a + da * d]. *)
Definition joint_exact
  (odeint : (vec -> R -> R -> R -> vec) -> vec -> list R -> R * R -> list vec)
  : Prop :=
  forall (s : t) (v0 : vec) (d da1 da2 : R),
    let v := last (odeint (robot s) v0 (linspace 0 d 11) (da1, da2)) v0 in
    vec_a1 v = vec_a1 v0 + da1 * d /\ vec_a2 v = vec_a2 v0 + da2 * d.

(** The heading is in the closed range whenever a call returned. *)
Definition heading_in_closed_range (out : Res t (R * R)) : Prop :=
  match out with
  | Done _ s' => - PI <= theta s' <= PI
  | Raised _ _ => True
  end.

(** ** Concrete robots

    The object of the [__main__] block, and objects built by [__init__]
    with other arguments, on which the methods are run below. *)

(** [SwimmingRobot(t_interval=0.5)]. *)
Definition main_robot : t := init 0 0 0 0 (- PI / 4) (PI / 4) 2 1 0.5 1.

(** [SwimmingRobot(theta=-pi, a1=-pi/2, a2=pi/2)]. *)
Definition heading_robot : t :=
  init 0 0 0 (- PI) (- PI / 2) (PI / 2) 2 1 0.25 1.

(** [SwimmingRobot(a1=3)]: the first joint is beyond its upper limit. *)
Definition out_of_limits_robot : t := init 0 0 0 0 3 (PI / 4) 2 1 0.25 1.

(** [SwimmingRobot(a1=0, a2=pi/2 - 1 + 5e-8, t_interval=1)]. *)
Definition overshoot_robot : t :=
  init 0 0 0 0 0 (PI / 2 - 1 + 0.00000005) 2 1 1 1.

(** [SwimmingRobot(a1=1, a2=-1, t_interval=1)]. *)
Definition bound_robot : t := init 0 0 0 0 1 (-1) 2 1 1 1.

(** [SwimmingRobot(a1=-pi/2 + 1.1, a2=pi/2 - 1, t_interval=2)]. *)
Definition scaling_robot : t :=
  init 0 0 0 0 (- PI / 2 + 1.1) (PI / 2 - 1) 2 1 2 3.

(** What [round_angles_to_limits] makes of a first and of a second joint
    angle for a tolerance [tol]. *)
Definition round_a1 (tol a : R) : R :=
  if Rlt_dec (Rabs (a - PI / 2)) tol then PI / 2
  else if Rlt_dec (Rabs (a + PI / 2)) tol then - PI / 2
  else a.

Definition round_a2 (tol a : R) : R :=
  if Rlt_dec (Rabs (a + PI / 2)) tol then - PI / 2
  else if Rlt_dec (Rabs (a - PI / 2)) tol then PI / 2
  else a.

(** The stored pair [state] agrees with the two joint angles. *)
Definition state_consistent (s : t) : Prop := state s = (a1 s, a2 s).

(** Scaling and adding rows of six components. *)
Definition vec_scale (c : R) (v : vec) : vec :=
  let '(v1, v2, v3, v4, v5, v6) := v in
  (c * v1, c * v2, c * v3, c * v4, c * v5, c * v6).

Definition vec_add (v w : vec) : vec :=
  let '(v1, v2, v3, v4, v5, v6) := v in
  let '(w1, w2, w3, w4, w5, w6) := w in
  (v1 + w1, v2 + w2, v3 + w3, v4 + w4, v5 + w5, v6 + w6).

(** The joint angles a limit-enforced [move] returns with, for a solver
    exact on the joint channels, from the two crossing times. *)
Definition enforced_joints (s : t) (a1dot' a2dot' a1_t a2_t : R) : R * R :=
  if Rgt_dec (Rabs (a1_t - a2_t)) 0.0000001 then
    if Rgt_dec a2_t a1_t then
      (snap_a1 (snap_a1 (a1 s + a1dot' * a1_t) + 0 * (a2_t - a1_t)),
       snap_a2 (snap_a2 (a2 s + a2dot' * a1_t) + a2dot' * (a2_t - a1_t)))
    else
      (snap_a1 (snap_a1 (a1 s + a1dot' * a2_t) + a1dot' * (a1_t - a2_t)),
       snap_a2 (snap_a2 (a2 s + a2dot' * a2_t) + 0 * (a1_t - a2_t)))
  else
    (snap_a1 (a1 s + a1dot' * a1_t), snap_a2 (a2 s + a2dot' * a1_t)).

(** * Properties *)

(** ** Arithmetic of the Python operators *)

Lemma two_PI_pos : 0 < 2 * PI.
Proof. pose proof PI_RGT_0; lra. Qed.

Lemma mod_pos_bound (x m : R) : 0 < m -> 0 <= mod_ x m < m.
Proof.
  intros Hm. unfold mod_.
  destruct (Zfloor_bound (x / m)) as [Hlo Hhi].
  assert (Hx : x = m * (x / m)) by (field; lra).
  split.
  - apply (Rmult_le_compat_l m) in Hlo; [|lra]. lra.
  - apply (Rmult_lt_compat_l m) in Hhi; [|lra]. lra.
Qed.

Lemma mod_neg_bound (x m : R) : m < 0 -> m < mod_ x m <= 0.
Proof.
  intros Hm. unfold mod_.
  destruct (Zfloor_bound (x / m)) as [Hlo Hhi].
  assert (Hx : x = m * (x / m)) by (field; lra).
  split.
  - apply (Rmult_lt_compat_l (- m)) in Hhi; [|lra]. lra.
  - apply (Rmult_le_compat_l (- m)) in Hlo; [|lra]. lra.
Qed.

(** ** The angle-wrapping routine *)

Lemma wrapped_range (angle : R) : - PI <= wrapped angle <= PI.
Proof.
  pose proof two_PI_pos as H2.
  unfold wrapped.
  destruct (Rgt_dec angle PI) as [Hgt|Hle].
  - pose proof (mod_pos_bound angle (2 * PI) H2) as [? ?].
    cbv zeta. destruct (Rgt_dec (mod_ angle (2 * PI)) PI); lra.
  - destruct (Rlt_dec angle (- PI)) as [Hlt|Hge]; [|lra].
    assert (Hm : -2 * PI < 0) by lra.
    pose proof (mod_neg_bound angle (-2 * PI) Hm) as [? ?].
    cbv zeta. destruct (Rlt_dec (mod_ angle (-2 * PI)) (- PI)); lra.
Qed.

Lemma wrapped_id (angle : R) : - PI <= angle <= PI -> wrapped angle = angle.
Proof.
  intros [Hlo Hhi]. unfold wrapped.
  destruct (Rgt_dec angle PI); [lra|].
  destruct (Rlt_dec angle (- PI)); [lra|]. reflexivity.
Qed.

Lemma wrapped_idem (angle : R) : wrapped (wrapped angle) = wrapped angle.
Proof. apply wrapped_id, wrapped_range. Qed.

Lemma DeepRobot_enforce_eq (s : DeepRobot.t) :
  DeepRobot.enforce_theta_range s
  = Done tt (DeepRobot.set_theta (wrapped (DeepRobot.theta s)) s).
Proof. reflexivity. Qed.

Lemma Swimmer_enforce_theta (s : SwimmingRobot.t) :
  SwimmingRobot.enforce_angle_range "theta" s
  = Done tt (SwimmingRobot.set_theta (wrapped (SwimmingRobot.theta s)) s).
Proof. reflexivity. Qed.

Lemma Swimmer_enforce_a1 (s : SwimmingRobot.t) :
  SwimmingRobot.enforce_angle_range "a1" s
  = Done tt (SwimmingRobot.set_a1 (wrapped (SwimmingRobot.a1 s)) s).
Proof. reflexivity. Qed.

Lemma Swimmer_enforce_a2 (s : SwimmingRobot.t) :
  SwimmingRobot.enforce_angle_range "a2" s
  = Done tt (SwimmingRobot.set_a2 (wrapped (SwimmingRobot.a2 s)) s).
Proof. reflexivity. Qed.

Ltac angle_name_cases H :=
  unfold angle_names in H; simpl in H;
  destruct H as [H|[H|[H|[]]]]; subst.

Lemma Swimmer_enforce_range (n : string) (s : SwimmingRobot.t) :
  In n angle_names ->
  - PI <= attr n (final (SwimmingRobot.enforce_angle_range n s)) <= PI.
Proof.
  intros H; angle_name_cases H;
    [rewrite Swimmer_enforce_theta|rewrite Swimmer_enforce_a1
    |rewrite Swimmer_enforce_a2];
    cbn; apply wrapped_range.
Qed.

Lemma Swimmer_enforce_id (n : string) (s : SwimmingRobot.t) :
  In n angle_names -> - PI <= attr n s <= PI ->
  SwimmingRobot.enforce_angle_range n s = Done tt s.
Proof.
  intros H; angle_name_cases H; intros Hr;
    [rewrite Swimmer_enforce_theta|rewrite Swimmer_enforce_a1
    |rewrite Swimmer_enforce_a2];
    cbn in Hr; rewrite (wrapped_id _ Hr); destruct s; reflexivity.
Qed.

(** C10. The angle-wrapping routine, in both classes: the stored angle lies
    in the closed interval [[-pi, pi]]; the routine changes nothing when the
    angle is already there, in particular at exactly [-pi]; and running it
    twice gives what running it once gives. *)
Theorem C10_wrap_closed_range_identity_idempotent :
  (forall s : DeepRobot.t,
      - PI <= DeepRobot.theta (final (DeepRobot.enforce_theta_range s)) <= PI)
  /\ (forall s : DeepRobot.t,
      - PI <= DeepRobot.theta s <= PI ->
      DeepRobot.enforce_theta_range s = Done tt s)
  /\ (forall s : DeepRobot.t,
      DeepRobot.theta s = - PI ->
      DeepRobot.enforce_theta_range s = Done tt s)
  /\ (forall s : DeepRobot.t,
      (DeepRobot.enforce_theta_range ;;; DeepRobot.enforce_theta_range) s
      = DeepRobot.enforce_theta_range s)
  /\ (forall n (s : SwimmingRobot.t),
      In n angle_names ->
      - PI <= attr n (final (SwimmingRobot.enforce_angle_range n s)) <= PI)
  /\ (forall n (s : SwimmingRobot.t),
      In n angle_names -> - PI <= attr n s <= PI ->
      SwimmingRobot.enforce_angle_range n s = Done tt s)
  /\ (forall n (s : SwimmingRobot.t),
      In n angle_names -> attr n s = - PI ->
      SwimmingRobot.enforce_angle_range n s = Done tt s)
  /\ (forall n (s : SwimmingRobot.t),
      In n angle_names ->
      (SwimmingRobot.enforce_angle_range n ;;;
       SwimmingRobot.enforce_angle_range n) s
      = SwimmingRobot.enforce_angle_range n s).
Proof.
  pose proof PI_RGT_0 as Hpi.
  assert (Did : forall s : DeepRobot.t,
             - PI <= DeepRobot.theta s <= PI ->
             DeepRobot.enforce_theta_range s = Done tt s).
  { intros s Hr. rewrite DeepRobot_enforce_eq, (wrapped_id _ Hr).
    destruct s; reflexivity. }
  repeat apply conj.
  - intros s. rewrite DeepRobot_enforce_eq; cbn; apply wrapped_range.
  - exact Did.
  - intros s Hs. apply Did; lra.
  - intros s. unfold bind. rewrite (DeepRobot_enforce_eq s).
    apply Did. cbn. apply wrapped_range.
  - exact Swimmer_enforce_range.
  - exact Swimmer_enforce_id.
  - intros n s Hn Hs. apply Swimmer_enforce_id; [assumption|lra].
  - intros n s Hn. unfold bind.
    destruct (SwimmingRobot.enforce_angle_range n s) as [u s'|e s'] eqn:E.
    + destruct u.
      pose proof (Swimmer_enforce_range n s Hn) as Hr. rewrite E in Hr.
      cbn [final] in Hr. apply Swimmer_enforce_id; assumption.
    + reflexivity.
Qed.

(** The routine at a heading of exactly [-pi]. *)
Lemma C10_witness :
  - PI <= DeepRobot.theta (DeepRobot.mk 0 0 (- PI) 0 0 0 0 0 0) <= PI
  /\ DeepRobot.enforce_theta_range (DeepRobot.mk 0 0 (- PI) 0 0 0 0 0 0)
     = Done tt (DeepRobot.mk 0 0 (- PI) 0 0 0 0 0 0).
Proof.
  assert (H : - PI <= DeepRobot.theta (DeepRobot.mk 0 0 (- PI) 0 0 0 0 0 0)
              <= PI) by (pose proof PI_RGT_0; cbn; lra).
  split; [exact H|].
  exact (proj1 (proj2 C10_wrap_closed_range_identity_idempotent) _ H).
Defined.

(** ** The discretization utility *)

Lemma multiple_distance (k : Z) (v i : R) :
  0 < i -> Rabs (IZR k * i - v) = Rabs (IZR k - v / i) * i.
Proof.
  intros Hi.
  replace (IZR k * i - v) with ((IZR k - v / i) * i) by (field; lra).
  rewrite Rabs_mult, (Rabs_pos_eq i); lra.
Qed.

Lemma Z_below_or_above (k f : Z) :
  IZR k <= IZR f \/ IZR f + 1 <= IZR k.
Proof.
  destruct (Z_le_gt_dec k f) as [H|H].
  - left. now apply IZR_le.
  - right. rewrite <- plus_IZR. apply IZR_le. lia.
Qed.

(** C9. For a positive interval, [discretize] returns
    [(floor(v/i) + 1) * i] when the fractional remainder of [v/i] is at
    least one half and [floor(v/i) * i] otherwise; the value returned is a
    multiple of the interval nearest to [v], and of two nearest multiples
    it is the larger one. *)
Theorem C9_discretize_round_half_up (v i : R) :
  0 < i ->
  DeepRobot.discretize v i
  = Ok (if Rge_dec (v / i - IZR (Zfloor (v / i))) 0.5
        then (IZR (Zfloor (v / i)) + 1) * i
        else IZR (Zfloor (v / i)) * i)
  /\ exists n : Z,
      DeepRobot.discretize v i = Ok (IZR n * i)
      /\ (forall k : Z, Rabs (IZR n * i - v) <= Rabs (IZR k * i - v))
      /\ (forall k : Z,
             Rabs (IZR k * i - v) = Rabs (IZR n * i - v) -> (k <= n)%Z).
Proof.
  intros Hi.
  unfold DeepRobot.discretize, truediv, math_floor.
  destruct (Req_dec_T i 0) as [H0|_]; [lra|].
  destruct (Zfloor_bound (v / i)) as [Hlo Hhi].
  set (q := v / i) in *. set (f := Zfloor q) in *.
  cbv zeta.
  destruct (Rge_dec (q - IZR f) 0.5) as [Hge|Hlt].
  - split; [now rewrite plus_IZR|].
    exists (f + 1)%Z. split; [reflexivity|].
    split; intros k.
    + rewrite !multiple_distance by assumption. fold q.
      apply Rmult_le_compat_r; [lra|].
      rewrite plus_IZR.
      destruct (Z_below_or_above k f);
        unfold Rabs; repeat destruct Rcase_abs; lra.
    + rewrite !multiple_distance by assumption. fold q.
      intros E. apply Rmult_eq_reg_r in E; [|lra].
      apply le_IZR. rewrite plus_IZR in *.
      destruct (Z_below_or_above k (f + 1)) as [H|H];
        rewrite plus_IZR in H; [assumption|].
      revert E. unfold Rabs; repeat destruct Rcase_abs; lra.
  - split; [reflexivity|].
    exists f. split; [reflexivity|].
    split; intros k.
    + rewrite !multiple_distance by assumption. fold q.
      apply Rmult_le_compat_r; [lra|].
      destruct (Z_below_or_above k f);
        unfold Rabs; repeat destruct Rcase_abs; lra.
    + rewrite !multiple_distance by assumption. fold q.
      intros E. apply Rmult_eq_reg_r in E; [|lra].
      apply le_IZR.
      destruct (Z_below_or_above k f) as [H|H]; [assumption|].
      revert E. unfold Rabs; repeat destruct Rcase_abs; lra.
Qed.

(** The utility on the value [1] with the interval [1]. *)
Lemma C9_witness :
  0 < 1
  /\ DeepRobot.discretize 1 1
     = Ok (if Rge_dec (1 / 1 - IZR (Zfloor (1 / 1))) 0.5
           then (IZR (Zfloor (1 / 1)) + 1) * 1
           else IZR (Zfloor (1 / 1)) * 1).
Proof.
  split; [lra|].
  exact (proj1 (C9_discretize_round_half_up 1 1 Rlt_0_1)).
Defined.

(** ** Closed forms of the state updates *)

Lemma PI_bounds : 3 < PI <= 4.
Proof. pose proof PI2_3_2; pose proof PI_4; lra. Qed.

Ltac run_monad :=
  cbv beta iota zeta delta [bind get modify ret raise lift final].

Lemma update_params_eq (v : vec) (b : bool) (s : t) :
  update_params v b s = Done tt (committed v b s).
Proof.
  destruct v as [[[[[bx x'] y'] th] a1'] a2'].
  unfold update_params, committed, snap_a1, snap_a2, enforce_angle_range,
    round_angles_to_limits, abs.
  fold (wrapped th). fold (wrapped a1'). fold (wrapped a2').
  destruct b; cbn [negb String.eqb Ascii.eqb Bool.eqb]; run_monad;
    cbn [a1 a2 theta set_body_x set_x set_y set_theta set_a1 set_a2];
    fold (wrapped th); fold (wrapped a1'); fold (wrapped a2');
    repeat (destruct Rlt_dec; cbn [a1 a2 set_a1 set_a2]); reflexivity.
Qed.

Lemma perform_integration_eq odeint (action : R * R) (d : R) (s : t) :
  perform_integration odeint action d s = Done (integrated odeint action d s) s.
Proof.
  unfold perform_integration, integrated, bind, get, ret.
  destruct (Req_dec_T d 0); [reflexivity|].
  destruct action; reflexivity.
Qed.

(** [update_alpha_dots] either stores two velocities or raises on the
    division by a nominal duration of zero, before any assignment. *)
Lemma update_alpha_dots_cases (a1dot1 a2dot1 t1 a1dot2 a2dot2 : R)
  (t2 : option R) (s : t) :
  (exists v1 v2,
      update_alpha_dots a1dot1 a2dot1 t1 a1dot2 a2dot2 t2 s
      = Done tt (set_a2dot v2 (set_a1dot v1 s)))
  \/ (update_alpha_dots a1dot1 a2dot1 t1 a1dot2 a2dot2 t2 s
      = Raised ZeroDivisionError s
      /\ t_interval s * timestep s = 0).
Proof.
  unfold update_alpha_dots, truediv.
  set (t2' := match t2 with None => 0 | Some t2 => t2 end).
  run_monad.
  destruct (Rlt_dec (t1 + t2') (t_interval s + timestep s));
    [destruct (Req_dec_T (t_interval s * timestep s) 0) as [E|NE];
       [right; split; [reflexivity|exact E]|]|];
    (left; destruct (Req_dec_T (t1 + t2') 0);
     eexists; eexists; reflexivity).
Qed.

(** ** One call of [move] *)

Lemma frame_refl (s : t) : frame s s.
Proof. repeat split. Qed.

Lemma frame_committed (v : vec) (b : bool) (s : t) : frame s (committed v b s).
Proof. destruct v as [[[[[? ?] ?] ?] ?] ?]. repeat split. Qed.

Lemma frame_trans (s1 s2 s3 : t) : frame s1 s2 -> frame s2 s3 -> frame s1 s3.
Proof. unfold frame. intuition congruence. Qed.

Lemma theta_committed (v : vec) (b : bool) (s : t) :
  theta (committed v b s) = wrapped (vec_theta v).
Proof. destruct v as [[[[[? ?] ?] ?] ?] ?]. reflexivity. Qed.

Lemma check_angles_cases (s : t) :
  (in_limits s /\ check_angles s = Done tt s)
  \/ (~ in_limits s
      /\ exists msg v, check_angles s = Raised (Exception msg v) s).
Proof.
  unfold check_angles, in_limits. run_monad.
  destruct (Rlt_dec (a1 s) (- PI / 2));
    [right; split; [lra|eexists; eexists; reflexivity]|].
  destruct (Rgt_dec (a1 s) (PI / 2));
    [right; split; [lra|eexists; eexists; reflexivity]|].
  destruct (Rlt_dec (a2 s) (- PI / 2));
    [right; split; [lra|eexists; eexists; reflexivity]|].
  destruct (Rgt_dec (a2 s) (PI / 2));
    [right; split; [lra|eexists; eexists; reflexivity]|].
  left. split; [lra|reflexivity].
Qed.

(** A joint inside its limits never has its crossing time computed by a
    division by a zero velocity. *)
Lemma crossing_time_a1_defined (s : t) (a1dot d : R) :
  - PI / 2 <= a1 s <= PI / 2 ->
  exists a1_t, crossing_time_a1 s (a1 s + a1dot * d) a1dot d = Ok a1_t.
Proof.
  intros Hin. unfold crossing_time_a1, truediv.
  destruct Rlt_dec as [Hlo|_];
    [|destruct Rgt_dec as [Hhi|_]; [|eexists; reflexivity]];
    (destruct (Req_dec_T a1dot 0) as [E|_];
     [rewrite E in *; lra|eexists; reflexivity]).
Qed.

Lemma crossing_time_a2_defined (s : t) (a2dot d : R) :
  - PI / 2 <= a2 s <= PI / 2 ->
  exists a2_t, crossing_time_a2 s (a2 s + a2dot * d) a2dot d = Ok a2_t.
Proof.
  intros Hin. unfold crossing_time_a2, truediv.
  destruct Rlt_dec as [Hlo|_];
    [|destruct Rgt_dec as [Hhi|_]; [|eexists; reflexivity]];
    (destruct (Req_dec_T a2dot 0) as [E|_];
     [rewrite E in *; lra|eexists; reflexivity]).
Qed.

Section Move.

Variable odeint :
  (vec -> R -> R -> R -> vec) -> vec -> list R -> R * R -> list vec.

Lemma zero_nominal (s1 s' : t) :
  frame s1 s' -> t_interval s' * timestep s' = 0 ->
  t_interval s1 * timestep s1 = 0.
Proof. intros (_ & -> & -> & _). tauto. Qed.

Ltac frame_tac :=
  first [ apply frame_refl
        | apply frame_committed
        | eapply frame_trans; apply frame_committed ].

Ltac tail_of_move :=
  rewrite ?perform_integration_eq; run_monad;
  rewrite ?update_params_eq; run_monad;
  rewrite ?perform_integration_eq; run_monad;
  rewrite ?update_params_eq; run_monad;
  match goal with
  | |- context [update_alpha_dots ?a ?b ?c ?d ?e ?f ?s] =>
      let v1 := fresh "v1" in
      let v2 := fresh "v2" in
      let E := fresh "E" in
      let Z := fresh "Z" in
      destruct (update_alpha_dots_cases a b c d e f s)
        as [(v1 & v2 & E)|[E Z]];
      rewrite E; run_monad;
      [ split; [intros He; first [assumption | discriminate He]|];
        split; [reflexivity|];
        do 4 eexists; split; [|reflexivity]; frame_tac
      | right; split; [reflexivity|];
        split; [eapply zero_nominal; [|exact Z]; frame_tac|];
        split; [frame_tac|intros He; first [assumption | discriminate He]] ]
  end.

Lemma move_inv (action : R * R) (timestep' : R) (enforce : bool) (s : t) :
  move_post action timestep' enforce s
            (move odeint action timestep' enforce s).
Proof.
  destruct action as [a1dot' a2dot'].
  unfold move, move_post. run_monad.
  assert (Hl : in_limits (set_timestep timestep' s) <-> in_limits s)
    by (unfold in_limits; tauto).
  change (t_interval s * timestep' = 0)
    with (t_interval (set_timestep timestep' s)
          * timestep (set_timestep timestep' s) = 0).
  remember (set_timestep timestep' s) as s1 eqn:Es1.
  destruct enforce.
  - destruct (check_angles_cases s1) as [[Hin E]|[Hout (msg & v & E)]];
      rewrite E; [|left; rewrite <- Hl; eauto 8].
    pose proof Hin as [Hin1 Hin2]. apply Hl in Hin.
    destruct (crossing_time_a1_defined s1 a1dot'
                (timestep s1 * t_interval s1) Hin1) as [a1_t E1].
    destruct (crossing_time_a2_defined s1 a2dot'
                (timestep s1 * t_interval s1) Hin2) as [a2_t E2].
    rewrite E1, E2. run_monad.
    destruct (Rgt_dec (abs (a1_t - a2_t)) 0.0000001);
      [destruct (Rgt_dec a2_t a1_t)|]; tail_of_move.
  - tail_of_move.
Qed.

End Move.

(** ** The Euler solver is exact on the joint channels *)

Lemma robot_joint_rates (s : t) (v : vec) (d da1 da2 : R) :
  vec_a1 (robot s v d da1 da2) = da1 /\ vec_a2 (robot s v d da1 da2) = da2.
Proof.
  destruct v as [[[[[bx x'] y'] th] b1] b2].
  unfold robot, M.
  destruct (matmul32 (J s b1 b2) (da1, da2)) as [[f1 f2] f3].
  destruct (matmul33 (TeLg th) (f1, f2, f3)) as [[g1 g2] g3].
  split; reflexivity.
Qed.

Lemma vec_step_joints (h : R) (y d : vec) :
  vec_a1 (vec_step h y d) = vec_a1 y + h * vec_a1 d
  /\ vec_a2 (vec_step h y d) = vec_a2 y + h * vec_a2 d.
Proof.
  destruct y as [[[[[? ?] ?] ?] ?] ?], d as [[[[[? ?] ?] ?] ?] ?].
  split; reflexivity.
Qed.

Lemma last_cons (A : Type) (a d : A) (l : list A) :
  last (a :: l) d = last l a.
Proof.
  revert a d. induction l as [|b l IH]; intros a d; [reflexivity|].
  change (last (a :: b :: l) d) with (last (b :: l) d).
  rewrite (IH b d), (IH b a). reflexivity.
Qed.

Lemma euler_rows_joints (s : t) (da1 da2 : R) (ts : list R) :
  forall (y : vec) (t0 : R),
    let v := last (euler_rows (robot s) y t0 ts (da1, da2)) y in
    vec_a1 v = vec_a1 y + da1 * (last ts t0 - t0)
    /\ vec_a2 v = vec_a2 y + da2 * (last ts t0 - t0).
Proof.
  induction ts as [|t1 ts IH]; intros y t0; cbv zeta.
  - cbn. split; ring.
  - cbn [euler_rows fst snd].
    set (y' := vec_step (t1 - t0) y (robot s y t0 da1 da2)).
    rewrite (last_cons _ y' y), (last_cons _ t1 t0).
    destruct (IH y' t1) as [H1 H2]. rewrite H1, H2.
    destruct (vec_step_joints (t1 - t0) y (robot s y t0 da1 da2)) as [S1 S2].
    destruct (robot_joint_rates s y t0 da1 da2) as [R1 R2].
    fold y' in S1, S2. rewrite S1, S2, R1, R2. split; ring.
Qed.

Lemma euler_joint_exact : joint_exact euler_odeint.
Proof.
  intros s v0 d da1 da2. cbv zeta.
  unfold linspace. cbn [seq map euler_odeint].
  rewrite last_cons.
  match goal with
  | |- context [euler_rows _ _ ?t0 ?ts _] =>
      destruct (euler_rows_joints s da1 da2 ts v0 t0) as [H1 H2];
      assert (Hd : last ts t0 - t0 = d) by (cbn; field)
  end.
  rewrite Hd in H1, H2. split; assumption.
Qed.

(** ** Running the methods on concrete attributes *)

Ltac unfold_methods :=
  rewrite ?perform_integration_eq, ?update_params_eq;
  cbv beta iota zeta delta
    [move check_angles crossing_time_a1 crossing_time_a2
     update_alpha_dots randomize_state uniform integrated_duration
     integrated committed truediv abs min Rabs
     bind get modify ret raise lift final moves
     init default main_robot heading_robot out_of_limits_robot
     overshoot_robot bound_robot scaling_robot set_body_x set_x set_y set_theta set_a1 set_a2 set_a1dot set_a2dot
     set_timestep set_state_attr
     body_x x y theta a1 a2 a1dot a2dot time t_interval timestep L k state
     fst snd].

Ltac refute := try (exfalso; lra).

(** One comparison of the goal is settled by linear arithmetic over the
    bounds of [PI]. *)
Ltac decide_step :=
  match goal with
  | |- context [Rcase_abs ?a] => destruct (Rcase_abs a); refute
  | |- context [Req_dec_T ?a ?b] => destruct (Req_dec_T a b); refute
  | |- context [Rlt_dec ?a ?b] => destruct (Rlt_dec a b); refute
  | |- context [Rgt_dec ?a ?b] => destruct (Rgt_dec a b); refute
  | |- context [Rge_dec ?a ?b] => destruct (Rge_dec a b); refute
  end.

(** The last row of a solution is named, component by component. *)
Ltac name_row :=
  match goal with
  | |- context [last (?od ?f ?v0 ?ts ?args) ?v1] =>
      let bx := fresh "bx" in
      let px := fresh "px" in
      let py := fresh "py" in
      let th := fresh "th" in
      let j1 := fresh "j1" in
      let j2 := fresh "j2" in
      destruct (last (od f v0 ts args) v1) as [[[[[bx px] py] th] j1] j2]
  end.

(** The same, keeping what an exact solver says of the joint channels. *)
Ltac name_exact_row H :=
  match goal with
  | |- context [last (?od (robot ?s) ?v0 (linspace 0 ?d 11) (?da1, ?da2)) ?v0] =>
      let J1 := fresh "J" in
      let J2 := fresh "J" in
      destruct (H s v0 d da1 da2) as [J1 J2];
      let bx := fresh "bx" in
      let px := fresh "px" in
      let py := fresh "py" in
      let th := fresh "th" in
      let j1 := fresh "j1" in
      let j2 := fresh "j2" in
      destruct (last (od (robot s) v0 (linspace 0 d 11) (da1, da2)) v0)
        as [[[[[bx px] py] th] j1] j2];
      cbv beta iota delta [vec_a1 vec_a2] in J1, J2
  end.

Ltac run :=
  unfold_methods; repeat (first [name_row | decide_step]; unfold_methods).

Ltac run_exact H :=
  unfold_methods;
  repeat (first [name_exact_row H | decide_step]; unfold_methods).

(** ** The claims about [move] *)

Lemma time_committed (v : vec) (b : bool) (s : t) :
  time (committed v b s) = time s.
Proof. apply frame_committed. Qed.

Section MoveClaims.

Variable odeint :
  (vec -> R -> R -> R -> vec) -> vec -> list R -> R * R -> list vec.

Lemma move_heading (action : R * R) (timestep' : R) (enforce : bool) (s : t) :
  heading_in_closed_range (move odeint action timestep' enforce s).
Proof.
  pose proof (move_inv odeint action timestep' enforce s) as H.
  destruct (move odeint action timestep' enforce s) as [st s'|e s'];
    [|exact I].
  destruct H as (_ & _ & v & mid & v1 & v2 & _ & ->).
  cbn [heading_in_closed_range].
  change (- PI <= theta (committed v enforce mid) <= PI).
  rewrite theta_committed. apply wrapped_range.
Qed.

(** C4, amended.  When a limit-enforced [move] begins with a joint angle
    outside [[-pi/2, pi/2]], the call raises the exception of
    [check_angles], and the object is as before except for [timestep],
    which holds the argument of the call: position, heading, joint angles,
    joint velocities, elapsed time and the stored state pair are
    unchanged. *)
Theorem C4_out_of_limits_raises_after_timestep_write
  (action : R * R) (timestep' : R) (s : t) :
  ~ in_limits s ->
  exists msg v s',
    move odeint action timestep' true s = Raised (Exception msg v) s'
    /\ s' = set_timestep timestep' s
    /\ timestep s' = timestep'
    /\ body_x s' = body_x s /\ x s' = x s /\ y s' = y s
    /\ theta s' = theta s /\ a1 s' = a1 s /\ a2 s' = a2 s
    /\ a1dot s' = a1dot s /\ a2dot s' = a2dot s /\ time s' = time s
    /\ t_interval s' = t_interval s /\ state s' = state s.
Proof.
  intros Hout.
  pose proof (move_inv odeint action timestep' true s) as H.
  destruct (move odeint action timestep' true s) as [st s'|e s'].
  - destruct H as (Hin & _). exfalso. apply Hout, Hin. reflexivity.
  - destruct H as [(_ & _ & -> & msg & v & ->)|(_ & _ & _ & Hin)].
    + exists msg, v, (set_timestep timestep' s).
      repeat split.
    + exfalso. apply Hout, Hin. reflexivity.
Qed.

(** C5, amended.  Every commit by [update_params] leaves the heading in
    the closed interval [[-pi, pi]], and so does every call that returns
    in any sequence of [move] calls, with limit enforcement on or off. *)
Theorem C5_heading_in_closed_interval :
  (forall (v : vec) (b : bool) (s : t),
      - PI <= theta (final (update_params v b s)) <= PI)
  /\ (forall (calls : list call) (s : t),
         Forall heading_in_closed_range (moves odeint calls s)).
Proof.
  split.
  - intros v b s. rewrite update_params_eq. cbn [final].
    rewrite theta_committed. apply wrapped_range.
  - induction calls as [|[[action timestep'] enforce] calls IH]; intros s;
      cbn [moves]; constructor; [apply move_heading|apply IH].
Qed.

(** C6, amended.  No call of [move] changes the elapsed time: whether the
    call returns or raises, [time] is what it was on entry. *)
Theorem C6_move_leaves_time_unchanged
  (action : R * R) (timestep' : R) (enforce : bool) (s : t) :
  time (final (move odeint action timestep' enforce s)) = time s.
Proof.
  pose proof (move_inv odeint action timestep' enforce s) as H.
  destruct (move odeint action timestep' enforce s) as [st s'|e s'];
    cbn [final].
  - destruct H as (_ & _ & v & mid & v1 & v2 & (Ht & _) & ->).
    change (time (committed v enforce mid) = time s).
    rewrite time_committed. exact Ht.
  - destruct H as [(_ & _ & -> & _)|(_ & _ & (Ht & _) & _)];
      [reflexivity|exact Ht].
Qed.

(** C8.  In a limit-enforced [move], a joint commanded with velocity zero
    whose angle is within the limits has the nominal duration as its
    crossing time, computed without a division; and the call can raise
    [ZeroDivisionError] only when the nominal duration itself is zero. *)
Theorem C8_zero_velocity_keeps_nominal_duration
  (s : t) (a1dot' a2dot' timestep' : R) :
  let d := timestep' * t_interval s in
  (a1dot' = 0 -> - PI / 2 <= a1 s <= PI / 2 ->
   crossing_time_a1 s (a1 s + a1dot' * d) a1dot' d = Ok d)
  /\ (a2dot' = 0 -> - PI / 2 <= a2 s <= PI / 2 ->
      crossing_time_a2 s (a2 s + a2dot' * d) a2dot' d = Ok d)
  /\ (t_interval s * timestep' <> 0 ->
      forall s', move odeint (a1dot', a2dot') timestep' true s
                 <> Raised ZeroDivisionError s').
Proof.
  cbv zeta. repeat apply conj.
  - intros -> Hin. unfold crossing_time_a1.
    rewrite Rmult_0_l, Rplus_0_r.
    destruct Rlt_dec; [lra|]. destruct Rgt_dec; [lra|]. reflexivity.
  - intros -> Hin. unfold crossing_time_a2.
    rewrite Rmult_0_l, Rplus_0_r.
    destruct Rlt_dec; [lra|]. destruct Rgt_dec; [lra|]. reflexivity.
  - intros Hnz s' E.
    pose proof (move_inv odeint (a1dot', a2dot') timestep' true s) as H.
    rewrite E in H.
    destruct H as [(_ & _ & _ & msg & v & Hm)|(_ & Hz & _)];
      [discriminate Hm|exact (Hnz Hz)].
Qed.

End MoveClaims.

(** ** The claims on concrete robots *)

(** C1, at a failing input.  With a solver exact on the joint channels,
    take a robot whose second joint is [1 - 5e-8] below its upper limit and
    command the velocities [(0, 1)] for a nominal duration of [1].  The two
    crossing times, [1] and [1 - 5e-8], differ by less than the tolerance
    [1e-7] of the split test, so a single integration runs for the crossing
    time of the first joint, the full [1]: the call returns with the second
    joint at [pi/2 + 5e-8], farther from the limit than the snapping
    tolerance [1e-9], and outside the limits; [check_angles] then raises on
    the object the call left. *)
Theorem C1_near_equal_crossing_times_overshoot
  (odeint : (vec -> R -> R -> R -> vec) -> vec -> list R -> R * R -> list vec) :
  joint_exact odeint ->
  in_limits overshoot_robot
  /\ exists st s',
      move odeint (0, 1) 1 true overshoot_robot = Done st s'
      /\ a1 s' = 0
      /\ a2 s' = PI / 2 + 0.00000005
      /\ ~ in_limits s'
      /\ check_angles s'
         = Raised (Exception "a2 out of limit: {x}" (a2 s')) s'.
Proof.
  intros H. pose proof PI_bounds as HPI.
  split; [unfold in_limits; unfold_methods; lra|].
  run_exact H; [].
  assert (S1 : snap_a1 j1 = 0) by (unfold snap_a1; run; lra).
  assert (S2 : snap_a2 j2 = PI / 2 + 0.00000005)
    by (unfold snap_a2; run; lra).
  rewrite S1, S2.
  eexists; eexists; split; [reflexivity|].
  unfold in_limits. run; [].
  repeat split; lra.
Qed.

(** The Euler solver is one solver exact on the joint channels. *)
Lemma C1_witness :
  joint_exact euler_odeint
  /\ exists st s',
      move euler_odeint (0, 1) 1 true overshoot_robot = Done st s'
      /\ a1 s' = 0
      /\ a2 s' = PI / 2 + 0.00000005
      /\ ~ in_limits s'
      /\ check_angles s'
         = Raised (Exception "a2 out of limit: {x}" (a2 s')) s'.
Proof.
  split; [exact euler_joint_exact|].
  exact (proj2 (C1_near_equal_crossing_times_overshoot
                  euler_odeint euler_joint_exact)).
Defined.

(** C2, at a failing input.  A first joint at [1] commanded at velocity
    [3] for a duration of [1] ends beyond the upper limit, and the crossing
    time computed for it is [(0 - 1) / 3], not [(pi/2 - 1) / 3]; a second
    joint at [-1] commanded at [-3] ends below the lower limit, and the
    crossing time computed for it is [(0 - -1) / -3], not
    [(-pi/2 - -1) / -3].  The other two branches use the limit the joint
    moves toward. *)
Theorem C2_crossing_time_uses_zero_as_bound :
  (a1 bound_robot + 3 * 1 > PI / 2
   /\ crossing_time_a1 bound_robot (a1 bound_robot + 3 * 1) 3 1
      = Ok ((0 - a1 bound_robot) / 3)
   /\ (0 - a1 bound_robot) / 3 <> (PI / 2 - a1 bound_robot) / 3)
  /\ (a2 bound_robot + -3 * 1 < - PI / 2
      /\ crossing_time_a2 bound_robot (a2 bound_robot + -3 * 1) (-3) 1
         = Ok ((0 - a2 bound_robot) / -3)
      /\ (0 - a2 bound_robot) / -3 <> (- PI / 2 - a2 bound_robot) / -3)
  /\ crossing_time_a1 bound_robot (a1 bound_robot + -4 * 1) (-4) 1
     = Ok ((- PI / 2 - a1 bound_robot) / -4)
  /\ crossing_time_a2 bound_robot (a2 bound_robot + 4 * 1) 4 1
     = Ok ((PI / 2 - a2 bound_robot) / 4).
Proof.
  pose proof PI_bounds as HPI.
  repeat apply conj; run; solve [lra | reflexivity].
Qed.

(** C3, at a failing input.  With [t_interval = 2] and [timestep = 3] the
    nominal duration is [6] and the first joint reaches its lower limit
    after [5.5], the second its upper limit after [1]: the move splits with
    [t1 = 1] and [t2 = 4.5].  The combined duration [5.5] is less than the
    nominal duration, yet the stored velocities are the plain time-weighted
    averages: the test that guards the scaling compares [t1 + t2] with
    [t_interval + timestep = 5]. *)
Theorem C3_scaling_guard_compares_with_sum
  (odeint : (vec -> R -> R -> R -> vec) -> vec -> list R -> R * R -> list vec) :
  exists st s',
    move odeint (-0.2, 1) 3 true scaling_robot = Done st s'
    /\ integrated_duration scaling_robot (-0.2, 1) 3 true = Ok (1 + 4.5)
    /\ 1 + 4.5 < t_interval scaling_robot * 3
    /\ a1dot s' = (1 * -0.2 + 4.5 * -0.2) / (1 + 4.5)
    /\ a2dot s' = (1 * 1 + 4.5 * 0) / (1 + 4.5)
    /\ a1dot s'
       <> (1 * -0.2 + 4.5 * -0.2) / (1 + 4.5)
          * ((1 + 4.5) / (t_interval scaling_robot * 3))
    /\ a2dot s'
       <> (1 * 1 + 4.5 * 0) / (1 + 4.5)
          * ((1 + 4.5) / (t_interval scaling_robot * 3)).
Proof.
  pose proof PI_bounds as HPI.
  assert (E1 : (PI / 2 - (PI / 2 - 1)) / 1 = 1) by lra.
  assert (E2 : (- PI / 2 - (- PI / 2 + 1.1)) / -0.2 = 5.5) by lra.
  run; [].
  rewrite ?E1, ?E2.
  eexists; eexists; split; [reflexivity|].
  run; rewrite ?E1, ?E2.
  repeat apply conj; try lra.
  f_equal; lra.
Qed.

(** C4, as stated, fails.  A robot built with its first joint at [3],
    beyond the upper limit: [move] with a timestep count of [2] raises, and
    the object it leaves has [timestep = 2] where it had [1]. *)
Lemma C4_timestep_written_counterexample :
  ~ in_limits out_of_limits_robot
  /\ exists e s',
      move euler_odeint (0, 0) 2 true out_of_limits_robot = Raised e s'
      /\ timestep out_of_limits_robot = 1
      /\ timestep s' = 2
      /\ s' <> out_of_limits_robot.
Proof.
  pose proof PI_bounds as HPI.
  split; [unfold in_limits; unfold_methods; lra|].
  run; [].
  eexists; eexists; split; [reflexivity|].
  repeat apply conj; try reflexivity.
  intros E. apply (f_equal timestep) in E. revert E. unfold_methods. lra.
Qed.

(** The amended C4 on the robot built with its first joint at [3]. *)
Lemma C4_witness :
  ~ in_limits out_of_limits_robot
  /\ exists msg v s',
      move euler_odeint (0, 0) 2 true out_of_limits_robot
      = Raised (Exception msg v) s'
      /\ s' = set_timestep 2 out_of_limits_robot.
Proof.
  assert (H : ~ in_limits out_of_limits_robot).
  { pose proof PI_bounds as HPI. unfold in_limits. unfold_methods. lra. }
  split; [exact H|].
  destruct (C4_out_of_limits_raises_after_timestep_write
              euler_odeint (0, 0) 2 out_of_limits_robot H)
    as (msg & v & s' & E & Es & _).
  exists msg, v, s'. split; assumption.
Defined.

(** C5, as stated, fails.  A robot built with heading [-pi] and its joints
    on their limits, commanded further outwards: both crossing times are
    zero, the single integration has duration zero, and the call returns
    with the heading committed at [-pi], outside [(-pi, pi]]. *)
Lemma C5_heading_minus_pi_counterexample :
  exists st s',
    moves euler_odeint [((-1, 1), 1, true)] heading_robot = [Done st s']
    /\ theta s' = - PI
    /\ ~ (- PI < theta s' <= PI).
Proof.
  pose proof PI_bounds as HPI.
  assert (Hw : wrapped (- PI) = - PI) by (apply wrapped_id; lra).
  run; [].
  rewrite Hw.
  eexists; eexists; split; [reflexivity|].
  unfold_methods. split; [reflexivity|lra].
Qed.

(** C6, as stated, fails.  The robot of the [__main__] block, commanded
    [(0, pi/2)] for one timestep: a single integration of duration
    [1 * 0.5] runs, and the call returns with the elapsed time still at
    its initial value [0]. *)
Lemma C6_time_not_advanced_counterexample :
  exists st s',
    move euler_odeint (0, PI / 2) 1 true main_robot = Done st s'
    /\ integrated_duration main_robot (0, PI / 2) 1 true = Ok (1 * 0.5)
    /\ time main_robot = 0
    /\ time s' = 0
    /\ time s' <> time main_robot + 1 * 0.5.
Proof.
  pose proof PI_bounds as HPI.
  run; [].
  eexists; eexists; split; [reflexivity|].
  run; [].
  repeat apply conj; try reflexivity; lra.
Qed.

(** C7, at a failing input.  With the flag set and both draws of
    [random()] equal to [0.75], [randomize_state] returns the pair
    [(pi/4, pi/4)], two angles of the same sign; the flag is never read, so
    the call does what it does with the flag unset. *)
Theorem C7_opposite_signs_flag_is_ignored (s : t) :
  (exists s',
      randomize_state true 0.75 0.75 s = Done (PI / 4, PI / 4) s'
      /\ a1 s' = PI / 4 /\ a2 s' = PI / 4 /\ 0 < PI / 4)
  /\ (forall u1 u2 : R,
         randomize_state true u1 u2 s = randomize_state false u1 u2 s).
Proof.
  pose proof PI_bounds as HPI.
  split; [|reflexivity].
  assert (E : - PI / 2 + (PI / 2 - - PI / 2) * 0.75 = PI / 4) by lra.
  destruct s. run. rewrite E.
  eexists; split; [reflexivity|].
  unfold_methods. repeat split; lra.
Qed.

(** A robot within its limits on which C8 is instantiated. *)
Lemma C8_witness :
  0 = 0
  /\ - PI / 2 <= a1 default <= PI / 2
  /\ crossing_time_a1 default (a1 default + 0 * (1 * t_interval default)) 0
       (1 * t_interval default)
     = Ok (1 * t_interval default).
Proof.
  assert (H : - PI / 2 <= a1 default <= PI / 2).
  { pose proof PI_RGT_0. unfold default, init, a1. lra. }
  split; [reflexivity|]. split; [exact H|].
  exact (proj1 (C8_zero_velocity_keeps_nominal_duration
                  euler_odeint default 0 0 1) eq_refl H).
Defined.

(** * Further properties of the two classes *)

(** ** Wrapping keeps the direction of an angle *)

Lemma sin_cos_period_nat (x : R) (n : nat) :
  sin (x + INR n * (2 * PI)) = sin x /\ cos (x + INR n * (2 * PI)) = cos x.
Proof.
  replace (x + INR n * (2 * PI)) with (x + 2 * INR n * PI) by ring.
  split; [apply sin_period|apply cos_period].
Qed.

Lemma sin_cos_period_Z (x : R) (k : Z) :
  sin (x + IZR k * (2 * PI)) = sin x /\ cos (x + IZR k * (2 * PI)) = cos x.
Proof.
  destruct (Z_le_gt_dec 0 k) as [Hk|Hk].
  - rewrite <- (Z2Nat.id k Hk), <- INR_IZR_INZ. apply sin_cos_period_nat.
  - assert (Hn : (0 <= - k)%Z) by lia.
    destruct (sin_cos_period_nat (x + IZR k * (2 * PI)) (Z.to_nat (- k)))
      as [Hs Hc].
    rewrite INR_IZR_INZ, (Z2Nat.id _ Hn), opp_IZR in Hs, Hc.
    replace (x + IZR k * (2 * PI) + - IZR k * (2 * PI)) with x in Hs, Hc
      by ring.
    split; congruence.
Qed.

Lemma wrapped_congruent (angle : R) :
  exists k : Z, wrapped angle = angle + IZR k * (2 * PI).
Proof.
  unfold wrapped, mod_.
  destruct (Rgt_dec angle PI) as [_|_]; cbv zeta.
  - destruct Rgt_dec as [_|_].
    + exists (- Zfloor (angle / (2 * PI)) - 1)%Z.
      rewrite minus_IZR, opp_IZR. ring.
    + exists (- Zfloor (angle / (2 * PI)))%Z. rewrite opp_IZR. ring.
  - destruct (Rlt_dec angle (- PI)) as [_|_]; cbv zeta.
    + destruct Rlt_dec as [_|_].
      * exists (Zfloor (angle / (-2 * PI)) + 1)%Z. rewrite plus_IZR. ring.
      * exists (Zfloor (angle / (-2 * PI))). ring.
    + exists 0%Z. ring.
Qed.

Lemma wrapped_direction (angle : R) :
  sin (wrapped angle) = sin angle /\ cos (wrapped angle) = cos angle.
Proof.
  destruct (wrapped_congruent angle) as [k ->]. apply sin_cos_period_Z.
Qed.

(** X1. The angle-wrapping routine of either class changes the stored
    angle by a whole number of turns: its sine and cosine are what they
    were. *)
Theorem X1_wrapping_keeps_direction :
  (forall s : DeepRobot.t,
      let s' := final (DeepRobot.enforce_theta_range s) in
      (exists k : Z,
          DeepRobot.theta s' = DeepRobot.theta s + IZR k * (2 * PI))
      /\ sin (DeepRobot.theta s') = sin (DeepRobot.theta s)
      /\ cos (DeepRobot.theta s') = cos (DeepRobot.theta s))
  /\ (forall s : t,
         Forall
           (fun n =>
              let s' := final (enforce_angle_range n s) in
              (exists k : Z, attr n s' = attr n s + IZR k * (2 * PI))
              /\ sin (attr n s') = sin (attr n s)
              /\ cos (attr n s') = cos (attr n s))
           angle_names).
Proof.
  split.
  - intros s. cbv zeta. rewrite DeepRobot_enforce_eq. cbn [final].
    change (DeepRobot.theta (DeepRobot.set_theta ?v s)) with v.
    split; [apply wrapped_congruent|apply wrapped_direction].
  - intros s. unfold angle_names.
    apply Forall_cons; [|apply Forall_cons; [|apply Forall_cons;
                                               [|apply Forall_nil]]];
      cbv beta zeta;
      [rewrite Swimmer_enforce_theta|rewrite Swimmer_enforce_a1
      |rewrite Swimmer_enforce_a2];
      cbn [final]; cbn;
      (split; [apply wrapped_congruent|apply wrapped_direction]).
Qed.

(** ** Snapping joint angles to the limits *)

Lemma round_angles_to_limits_eq (tol : R) (s : t) :
  round_angles_to_limits tol s
  = Done tt (set_a2 (round_a2 tol (a2 s)) (set_a1 (round_a1 tol (a1 s)) s)).
Proof.
  unfold round_angles_to_limits, round_a1, round_a2, abs. run_monad.
  repeat (destruct Rlt_dec; cbn [a1 a2 set_a1 set_a2]);
    destruct s; reflexivity.
Qed.

Ltac split_abs := unfold Rabs in *; repeat destruct Rcase_abs.

Lemma round_a1_cases (tol a : R) :
  round_a1 tol a = a
  \/ (Rabs (round_a1 tol a - a) < tol
      /\ (round_a1 tol a = PI / 2 \/ round_a1 tol a = - PI / 2)).
Proof.
  unfold round_a1.
  destruct Rlt_dec as [H|_];
    [right; split; [rewrite Rabs_minus_sym; exact H|left; reflexivity]|].
  destruct Rlt_dec as [H|_]; [|left; reflexivity].
  right. split; [|right; reflexivity].
  rewrite Rabs_minus_sym.
  replace (a - - PI / 2) with (a + PI / 2) by lra. exact H.
Qed.

Lemma round_a2_cases (tol a : R) :
  round_a2 tol a = a
  \/ (Rabs (round_a2 tol a - a) < tol
      /\ (round_a2 tol a = PI / 2 \/ round_a2 tol a = - PI / 2)).
Proof.
  unfold round_a2.
  destruct Rlt_dec as [H|_].
  { right. split; [|right; reflexivity].
    rewrite Rabs_minus_sym.
    replace (a - - PI / 2) with (a + PI / 2) by lra. exact H. }
  destruct Rlt_dec as [H|_]; [|left; reflexivity].
  right. split; [rewrite Rabs_minus_sym; exact H|left; reflexivity].
Qed.

Lemma round_a1_idem (tol a : R) :
  tol <= PI -> round_a1 tol (round_a1 tol a) = round_a1 tol a.
Proof.
  intros Htol. pose proof PI_bounds as HPI. unfold round_a1.
  destruct (Rlt_dec (Rabs (a - PI / 2)) tol) as [H1|H1].
  - destruct Rlt_dec as [_|N]; [reflexivity|].
    exfalso; apply N. revert H1. split_abs; lra.
  - destruct (Rlt_dec (Rabs (a + PI / 2)) tol) as [H2|H2].
    + destruct Rlt_dec as [B|_]; [exfalso; revert B; split_abs; lra|].
      destruct Rlt_dec as [_|N]; [reflexivity|].
      exfalso; apply N. revert H2. split_abs; lra.
    + destruct Rlt_dec; [contradiction|].
      destruct Rlt_dec; [contradiction|reflexivity].
Qed.

Lemma round_a2_idem (tol a : R) :
  tol <= PI -> round_a2 tol (round_a2 tol a) = round_a2 tol a.
Proof.
  intros Htol. pose proof PI_bounds as HPI. unfold round_a2.
  destruct (Rlt_dec (Rabs (a + PI / 2)) tol) as [H1|H1].
  - destruct Rlt_dec as [_|N]; [reflexivity|].
    exfalso; apply N. revert H1. split_abs; lra.
  - destruct (Rlt_dec (Rabs (a - PI / 2)) tol) as [H2|H2].
    + destruct Rlt_dec as [B|_]; [exfalso; revert B; split_abs; lra|].
      destruct Rlt_dec as [_|N]; [reflexivity|].
      exfalso; apply N. revert H2. split_abs; lra.
    + destruct Rlt_dec; [contradiction|].
      destruct Rlt_dec; [contradiction|reflexivity].
Qed.

Lemma round_keeps_limits (tol a : R) :
  - PI / 2 <= a <= PI / 2 ->
  (- PI / 2 <= round_a1 tol a <= PI / 2)
  /\ (- PI / 2 <= round_a2 tol a <= PI / 2).
Proof.
  intros H. pose proof PI_bounds.
  unfold round_a1, round_a2. repeat destruct Rlt_dec; lra.
Qed.

(** X2. [round_angles_to_limits] writes the two joint angles only; each
    one is either left as it is or moved, by less than the tolerance, onto
    one of the two limits.  Angles within the limits stay within them, and
    for a tolerance of at most [pi] a second call changes nothing. *)
Theorem X2_round_angles_to_limits_snaps (tol : R) (s : t) :
  exists b1 b2,
    round_angles_to_limits tol s = Done tt (set_a2 b2 (set_a1 b1 s))
    /\ (b1 = a1 s
        \/ (Rabs (b1 - a1 s) < tol /\ (b1 = PI / 2 \/ b1 = - PI / 2)))
    /\ (b2 = a2 s
        \/ (Rabs (b2 - a2 s) < tol /\ (b2 = PI / 2 \/ b2 = - PI / 2)))
    /\ (in_limits s -> in_limits (set_a2 b2 (set_a1 b1 s)))
    /\ (tol <= PI ->
        round_angles_to_limits tol (set_a2 b2 (set_a1 b1 s))
        = Done tt (set_a2 b2 (set_a1 b1 s))).
Proof.
  exists (round_a1 tol (a1 s)), (round_a2 tol (a2 s)).
  split; [apply round_angles_to_limits_eq|].
  split; [apply round_a1_cases|]. split; [apply round_a2_cases|].
  split.
  - intros [H1 H2]. split; cbn [a1 a2 set_a1 set_a2].
    + apply (round_keeps_limits tol _ H1).
    + apply (round_keeps_limits tol _ H2).
  - intros Htol. rewrite round_angles_to_limits_eq.
    cbn [a1 a2 set_a1 set_a2].
    rewrite round_a1_idem, round_a2_idem by assumption. reflexivity.
Qed.

(** The default tolerance on the robot built with default arguments. *)
Lemma X2_witness :
  in_limits default /\ 0.000000001 <= PI
  /\ exists b1 b2,
      round_angles_to_limits 0.000000001 default
      = Done tt (set_a2 b2 (set_a1 b1 default))
      /\ in_limits (set_a2 b2 (set_a1 b1 default))
      /\ round_angles_to_limits 0.000000001 (set_a2 b2 (set_a1 b1 default))
         = Done tt (set_a2 b2 (set_a1 b1 default)).
Proof.
  assert (Hl : in_limits default).
  { pose proof PI_bounds. unfold in_limits, default, init, a1, a2. lra. }
  assert (Ht : 0.000000001 <= PI) by (pose proof PI_bounds; lra).
  split; [exact Hl|]. split; [exact Ht|].
  destruct (X2_round_angles_to_limits_snaps 0.000000001 default)
    as (b1 & b2 & E & _ & _ & Hin & Hid).
  exists b1, b2. split; [exact E|]. split; [exact (Hin Hl)|exact (Hid Ht)].
Defined.

(** ** The limit test, the stored pair and the random state *)

(** X3. [check_angles] never writes an attribute.  It returns exactly when
    both joint angles are within [[-pi/2, pi/2]]; it raises for the first
    joint when that one is outside, whatever the second, and for the
    second joint otherwise. *)
Theorem X3_check_angles_tests_a1_then_a2 (s : t) :
  (in_limits s <-> check_angles s = Done tt s)
  /\ (~ (- PI / 2 <= a1 s <= PI / 2) ->
      check_angles s = Raised (Exception "a1 out of limit: {x}" (a1 s)) s)
  /\ (- PI / 2 <= a1 s <= PI / 2 -> ~ (- PI / 2 <= a2 s <= PI / 2) ->
      check_angles s = Raised (Exception "a2 out of limit: {x}" (a2 s)) s)
  /\ final (check_angles s) = s.
Proof.
  unfold in_limits, check_angles. run_monad.
  repeat (destruct Rlt_dec || destruct Rgt_dec);
    (split; [split|split; [|split]];
     [ intros (? & ?); first [reflexivity | exfalso; lra]
     | intros E; first [discriminate E | lra]
     | intros; first [reflexivity | exfalso; lra]
     | intros; first [reflexivity | exfalso; lra]
     | reflexivity ]).
Qed.

(** The robot built with its first joint at [3]. *)
Lemma X3_witness :
  ~ (- PI / 2 <= a1 out_of_limits_robot <= PI / 2)
  /\ check_angles out_of_limits_robot
     = Raised (Exception "a1 out of limit: {x}" (a1 out_of_limits_robot))
              out_of_limits_robot.
Proof.
  assert (H : ~ (- PI / 2 <= a1 out_of_limits_robot <= PI / 2)).
  { pose proof PI_bounds. unfold out_of_limits_robot, init, a1. lra. }
  split; [exact H|].
  exact (proj1 (proj2 (X3_check_angles_tests_a1_then_a2
                         out_of_limits_robot)) H).
Defined.

Section StatePair.

Variable odeint :
  (vec -> R -> R -> R -> vec) -> vec -> list R -> R * R -> list vec.

(** X4. The stored pair [state] equals the two joint angles on every
    object [__init__] builds, after [set_state], after [randomize_state]
    and after every call of [move] that returns; the last two return that
    pair. *)
Theorem X4_state_pair_tracks_joint_angles :
  (forall body_x x y theta a1 a2 link_length k t_interval timestep : R,
      state_consistent
        (init body_x x y theta a1 a2 link_length k t_interval timestep))
  /\ (forall (a b : R) (s : t),
         exists s', set_state a b s = Done tt s'
                    /\ state_consistent s' /\ state s' = (a, b))
  /\ (forall (flag : bool) (u1 u2 : R) (s : t),
         exists s', randomize_state flag u1 u2 s = Done (a1 s', a2 s') s'
                    /\ state_consistent s')
  /\ (forall (action : R * R) (timestep' : R) (enforce : bool) (s : t),
         match move odeint action timestep' enforce s with
         | Done st s' => state_consistent s' /\ st = (a1 s', a2 s')
         | Raised _ _ => True
         end).
Proof.
  repeat apply conj.
  - reflexivity.
  - intros a b s. eexists. split; [reflexivity|]. split; reflexivity.
  - intros flag u1 u2 s. exists (final (randomize_state flag u1 u2 s)).
    split; reflexivity.
  - intros action timestep' enforce s.
    pose proof (move_inv odeint action timestep' enforce s) as H.
    destruct (move odeint action timestep' enforce s) as [st s'|e s'];
      [|exact I].
    destruct H as (_ & -> & v & mid & v1 & v2 & _ & ->).
    split; reflexivity.
Qed.

End StatePair.

(** X5. With the two draws of [random()] in [[0, 1)], [randomize_state]
    leaves both joint angles in [[-pi/2, pi/2)], whatever the flag: the
    limit test of a following [move] passes. *)
Theorem X5_randomize_state_within_limits
  (flag : bool) (u1 u2 : R) (s : t) :
  0 <= u1 < 1 -> 0 <= u2 < 1 ->
  exists s',
    randomize_state flag u1 u2 s = Done (a1 s', a2 s') s'
    /\ - PI / 2 <= a1 s' < PI / 2
    /\ - PI / 2 <= a2 s' < PI / 2
    /\ check_angles s' = Done tt s'.
Proof.
  intros H1 H2. pose proof PI_bounds as HPI.
  assert (B : forall u, 0 <= u < 1 ->
                        - PI / 2 <= uniform (- PI / 2) (PI / 2) u < PI / 2).
  { intros u Hu. unfold uniform.
    assert (0 <= PI * u < PI) by nra. lra. }
  pose proof (B u1 H1) as B1. pose proof (B u2 H2) as B2.
  set (s' := final (randomize_state flag u1 u2 s)).
  assert (E1 : a1 s' = uniform (- PI / 2) (PI / 2) u1) by reflexivity.
  assert (E2 : a2 s' = uniform (- PI / 2) (PI / 2) u2) by reflexivity.
  exists s'. split; [reflexivity|].
  rewrite E1, E2. split; [exact B1|]. split; [exact B2|].
  destruct (check_angles_cases s') as [[_ E]|[Hout _]]; [exact E|].
  exfalso. apply Hout. unfold in_limits. rewrite E1, E2. lra.
Qed.

(** Both draws equal to [0.75], on the robot built with default
    arguments. *)
Lemma X5_witness :
  0 <= 0.75 < 1
  /\ exists s',
      randomize_state true 0.75 0.75 default = Done (a1 s', a2 s') s'
      /\ - PI / 2 <= a1 s' < PI / 2
      /\ - PI / 2 <= a2 s' < PI / 2
      /\ check_angles s' = Done tt s'.
Proof.
  assert (H : 0 <= 0.75 < 1) by lra.
  split; [exact H|].
  exact (X5_randomize_state_within_limits true 0.75 0.75 default H H).
Defined.

(** ** The velocity field of the swimmer *)

Ltac tuple_eq :=
  repeat match goal with |- (_, _) = (_, _) => f_equal end.

(** X6. [TeLg] is a planar rotation acting on the first two components:
    two of them compose by adding the angles, the angle zero gives the
    identity, the length of the linear part and the third component are
    kept; the static method of [DeepRobot] is the same array. *)
Theorem X6_TeLg_is_a_rotation (a b : R) (v : R * R * R) :
  matmul33 (TeLg a) (matmul33 (TeLg b) v) = matmul33 (TeLg (a + b)) v
  /\ matmul33 (TeLg 0) v = v
  /\ (let '(x0, y0, w0) := v in
      let '(x1, y1, w1) := matmul33 (TeLg a) v in
      x1 * x1 + y1 * y1 = x0 * x0 + y0 * y0 /\ w1 = w0)
  /\ DeepRobotKinematics.TeLg a = TeLg a.
Proof.
  destruct v as [[x0 y0] w0].
  unfold matmul33, TeLg.
  repeat apply conj.
  - rewrite cos_plus, sin_plus. tuple_eq; ring.
  - rewrite cos_0, sin_0. tuple_eq; ring.
  - pose proof (sin2_cos2 a) as H. unfold Rsqr in H.
    replace ((cos a * x0 + - sin a * y0 + 0 * w0)
             * (cos a * x0 + - sin a * y0 + 0 * w0)
             + (sin a * x0 + cos a * y0 + 0 * w0)
               * (sin a * x0 + cos a * y0 + 0 * w0))
      with ((x0 * x0 + y0 * y0) * (sin a * sin a + cos a * cos a)) by ring.
    rewrite H. ring.
  - ring.
  - reflexivity.
Qed.

Ltac unfold_M :=
  cbv beta iota zeta delta [M J matmul32 matmul33 TeLg vec_add vec_scale].

(** X7. [M] is linear in the commanded joint velocities, which it returns
    unchanged as its last two components; a zero command gives the zero
    row. *)
Theorem X7_M_is_linear_in_the_action
  (self : t) (theta a1 a2 c d1 d2 e1 e2 : R) :
  M self theta a1 a2 (c * d1 + e1) (c * d2 + e2)
  = vec_add (vec_scale c (M self theta a1 a2 d1 d2))
            (M self theta a1 a2 e1 e2)
  /\ M self theta a1 a2 0 0 = (0, 0, 0, 0, 0, 0)
  /\ vec_a1 (M self theta a1 a2 d1 d2) = d1
  /\ vec_a2 (M self theta a1 a2 d1 d2) = d2.
Proof.
  unfold vec_a1, vec_a2. unfold_M.
  repeat apply conj; try reflexivity; tuple_eq; ring.
Qed.

(** X8. The heading enters [M] as a rotation of the inertial linear
    velocity only: the body-frame forward velocity, the turning rate and
    the joint rates are those at heading zero, and the inertial velocity
    is the one at heading zero turned by [theta]. *)
Theorem X8_M_heading_is_a_rotation
  (self : t) (theta a1 a2 da1 da2 : R) :
  let '(body_xdot0, xdot0, ydot0, thetadot0, j1, j2) :=
    M self 0 a1 a2 da1 da2 in
  M self theta a1 a2 da1 da2
  = (body_xdot0,
     cos theta * xdot0 - sin theta * ydot0,
     sin theta * xdot0 + cos theta * ydot0,
     thetadot0, j1, j2)
  /\ body_xdot0 = xdot0
  /\ thetadot0 = J31 (L self) a1 a2 * da1 + J32 (L self) a1 a2 * da2.
Proof.
  unfold_M. rewrite cos_0, sin_0.
  repeat apply conj; tuple_eq; ring.
Qed.

(** ** Symmetries of the Jacobian *)

Lemma opp_sub (p q : R) : - p - - q = - (p - q).
Proof. ring. Qed.

Lemma opp_add (p q : R) : - p + - q = - (p + q).
Proof. ring. Qed.

(** Arguments built from [- a1] and [- a2] are turned into the opposites
    of those built from [a1] and [a2]. *)
Ltac mirror_args :=
  rewrite <- ?Ropp_mult_distr_r;
  rewrite ?opp_sub, ?opp_add;
  rewrite ?sin_neg, ?cos_neg.

(** Arguments that name [a2] before [a1] are turned into those that name
    [a1] first. *)
Ltac swap_args a1 a2 :=
  repeat match goal with
  | |- context [sin (?p + ?q)] =>
      match p with context [a2] => idtac end;
      match q with context [a1] => idtac end;
      rewrite (Rplus_comm p q)
  | |- context [cos (?p + ?q)] =>
      match p with context [a2] => idtac end;
      match q with context [a1] => idtac end;
      rewrite (Rplus_comm p q)
  | |- context [sin (?p - ?q)] =>
      match p with context [a2] => idtac end;
      match q with context [a1] => idtac end;
      replace (sin (p - q)) with (- sin (q - p))
        by (rewrite <- sin_neg; f_equal; ring)
  | |- context [cos (?p - ?q)] =>
      match p with context [a2] => idtac end;
      match q with context [a1] => idtac end;
      replace (cos (p - q)) with (cos (q - p))
        by (rewrite <- cos_neg; f_equal; ring)
  end.

Lemma J12_swap (L a1 a2 : R) : J12 L a1 a2 = - J11 L a2 a1.
Proof.
  unfold J12, J11. swap_args a1 a2. unfold Rdiv.
  match goal with
  | |- _ * / ?d1 = - (_ * / ?d2) => replace d1 with (- d2) by ring
  end.
  rewrite Rinv_opp. ring.
Qed.

Lemma J22_swap (L a1 a2 : R) : J22 L a1 a2 = J21 L a2 a1.
Proof.
  unfold J22, J21. swap_args a1 a2. unfold Rdiv.
  match goal with
  | |- _ * / ?d1 = _ * / ?d2 => replace d1 with d2 by ring
  end.
  ring.
Qed.

Lemma J32_swap (L a1 a2 : R) : J32 L a1 a2 = - J31 L a2 a1.
Proof.
  unfold J32, J31. swap_args a1 a2. unfold Rdiv.
  match goal with
  | |- _ * / ?d1 = - (_ * / ?d2) => replace d1 with d2 by ring
  end.
  ring.
Qed.

(** X9. Exchanging the two joint angles exchanges the two columns of the
    Jacobian, with the opposite sign in its first and third rows. *)
Theorem X9_J_exchange_symmetry (self : t) (a1 a2 : R) :
  let '((j11, j12), (j21, j22), (j31, j32)) := J self a1 a2 in
  J self a2 a1 = ((- j12, - j11), (j22, j21), (- j32, - j31)).
Proof.
  unfold J.
  rewrite (J12_swap (L self) a1 a2), (J12_swap (L self) a2 a1).
  rewrite (J22_swap (L self) a1 a2).
  rewrite (J32_swap (L self) a1 a2), (J32_swap (L self) a2 a1).
  rewrite (J22_swap (L self) a2 a1).
  tuple_eq; ring.
Qed.

Lemma J11_mirror (L a1 a2 : R) : J11 L (- a1) (- a2) = - J11 L a1 a2.
Proof. unfold J11. mirror_args. unfold Rdiv. ring. Qed.

Lemma J12_mirror (L a1 a2 : R) : J12 L (- a1) (- a2) = - J12 L a1 a2.
Proof. unfold J12. mirror_args. unfold Rdiv. ring. Qed.

Lemma J21_mirror (L a1 a2 : R) : J21 L (- a1) (- a2) = J21 L a1 a2.
Proof. unfold J21. mirror_args. unfold Rdiv. ring. Qed.

Lemma J22_mirror (L a1 a2 : R) : J22 L (- a1) (- a2) = J22 L a1 a2.
Proof. unfold J22. mirror_args. unfold Rdiv. ring. Qed.

Lemma J31_mirror (L a1 a2 : R) : J31 L (- a1) (- a2) = J31 L a1 a2.
Proof. unfold J31. mirror_args. unfold Rdiv. ring. Qed.

Lemma J32_mirror (L a1 a2 : R) : J32 L (- a1) (- a2) = J32 L a1 a2.
Proof. unfold J32. mirror_args. unfold Rdiv. ring. Qed.

(** X10. Negating both joint angles negates the first row of the Jacobian
    and keeps the other two; with both joints straight the first row is
    zero, so no command gives the straight swimmer a body-frame forward
    velocity. *)
Theorem X10_J_mirror_symmetry (self : t) (a1 a2 : R) :
  (let '((j11, j12), (j21, j22), (j31, j32)) := J self a1 a2 in
   J self (- a1) (- a2) = ((- j11, - j12), (j21, j22), (j31, j32)))
  /\ (forall theta da1 da2 : R,
         let '(body_xdot, _, _, _, _, _) := M self theta 0 0 da1 da2 in
         body_xdot = 0).
Proof.
  split.
  - unfold J.
    rewrite J11_mirror, J12_mirror, J21_mirror, J22_mirror, J31_mirror,
      J32_mirror.
    reflexivity.
  - intros theta da1 da2. unfold_M.
    pose proof (J11_mirror (L self) 0 0) as H1.
    pose proof (J12_mirror (L self) 0 0) as H2.
    rewrite Ropp_0 in H1, H2.
    assert (E1 : J11 (L self) 0 0 = 0) by lra.
    assert (E2 : J12 (L self) 0 0 = 0) by lra.
    rewrite E1, E2. ring.
Qed.

(** ** More on [move] *)

Lemma a1_committed (v : vec) (b : bool) (s : t) :
  a1 (committed v b s) = snap_a1 (if b then vec_a1 v else wrapped (vec_a1 v)).
Proof. destruct v as [[[[[? ?] ?] ?] ?] ?]. reflexivity. Qed.

Lemma a2_committed (v : vec) (b : bool) (s : t) :
  a2 (committed v b s) = snap_a2 (if b then vec_a2 v else wrapped (vec_a2 v)).
Proof. destruct v as [[[[[? ?] ?] ?] ?] ?]. reflexivity. Qed.

Lemma rates_committed (v : vec) (b : bool) (s : t) :
  a1dot (committed v b s) = a1dot s /\ a2dot (committed v b s) = a2dot s
  /\ state (committed v b s) = state s.
Proof. destruct v as [[[[[? ?] ?] ?] ?] ?]. repeat split. Qed.

Lemma snap_a1_values (a : R) :
  snap_a1 a = a \/ snap_a1 a = PI / 2 \/ snap_a1 a = - PI / 2.
Proof. unfold snap_a1. repeat destruct Rlt_dec; auto. Qed.

Lemma snap_a2_values (a : R) :
  snap_a2 a = a \/ snap_a2 a = PI / 2 \/ snap_a2 a = - PI / 2.
Proof. unfold snap_a2. repeat destruct Rlt_dec; auto. Qed.

(** An argument closer than the tolerance to the range is snapped into
    it, and snapping moves an angle by less than the tolerance. *)
Lemma snap_a1_into_limits (a : R) :
  - PI / 2 - 0.000000001 < a < PI / 2 + 0.000000001 ->
  - PI / 2 <= snap_a1 a <= PI / 2.
Proof.
  intros H. pose proof PI_bounds. unfold snap_a1.
  destruct Rlt_dec as [_|N1]; [lra|].
  destruct Rlt_dec as [_|N2]; [lra|].
  revert N1 N2. split_abs; lra.
Qed.

Lemma snap_a2_into_limits (a : R) :
  - PI / 2 - 0.000000001 < a < PI / 2 + 0.000000001 ->
  - PI / 2 <= snap_a2 a <= PI / 2.
Proof.
  intros H. pose proof PI_bounds. unfold snap_a2.
  destruct Rlt_dec as [_|N1]; [lra|].
  destruct Rlt_dec as [_|N2]; [lra|].
  revert N1 N2. split_abs; lra.
Qed.

Lemma snap_a1_near (a : R) : Rabs (snap_a1 a - a) < 0.000000001.
Proof.
  unfold snap_a1.
  destruct Rlt_dec as [H|_]; [revert H; split_abs; lra|].
  destruct Rlt_dec as [H|_]; [revert H; split_abs; lra|].
  split_abs; lra.
Qed.

Lemma snap_a2_near (a : R) : Rabs (snap_a2 a - a) < 0.000000001.
Proof.
  unfold snap_a2.
  destruct Rlt_dec as [H|_]; [revert H; split_abs; lra|].
  destruct Rlt_dec as [H|_]; [revert H; split_abs; lra|].
  split_abs; lra.
Qed.

(** Where a crossing time takes its joint, integrated at the commanded
    rate: into the limits. *)
Lemma crossing_time_a1_target (s : t) (a1dot' d a1_t : R) :
  - PI / 2 <= a1 s <= PI / 2 ->
  crossing_time_a1 s (a1 s + a1dot' * d) a1dot' d = Ok a1_t ->
  - PI / 2 <= a1 s + a1dot' * a1_t <= PI / 2.
Proof.
  intros Hin. pose proof PI_bounds. unfold crossing_time_a1, truediv.
  destruct Rlt_dec as [Hlo|Hlo].
  - destruct (Req_dec_T a1dot' 0) as [E|NE]; [discriminate|].
    intros [= <-].
    replace (a1 s + a1dot' * ((- PI / 2 - a1 s) / a1dot')) with (- PI / 2)
      by (field; assumption).
    lra.
  - destruct Rgt_dec as [Hhi|Hhi].
    + destruct (Req_dec_T a1dot' 0) as [E|NE]; [discriminate|].
      intros [= <-].
      replace (a1 s + a1dot' * ((0 - a1 s) / a1dot')) with 0
        by (field; assumption).
      lra.
    + intros [= <-]. lra.
Qed.

Lemma crossing_time_a2_target (s : t) (a2dot' d a2_t : R) :
  - PI / 2 <= a2 s <= PI / 2 ->
  crossing_time_a2 s (a2 s + a2dot' * d) a2dot' d = Ok a2_t ->
  - PI / 2 <= a2 s + a2dot' * a2_t <= PI / 2.
Proof.
  intros Hin. pose proof PI_bounds. unfold crossing_time_a2, truediv.
  destruct Rlt_dec as [Hlo|Hlo].
  - destruct (Req_dec_T a2dot' 0) as [E|NE]; [discriminate|].
    intros [= <-].
    replace (a2 s + a2dot' * ((0 - a2 s) / a2dot')) with 0
      by (field; assumption).
    lra.
  - destruct Rgt_dec as [Hhi|Hhi].
    + destruct (Req_dec_T a2dot' 0) as [E|NE]; [discriminate|].
      intros [= <-].
      replace (a2 s + a2dot' * ((PI / 2 - a2 s) / a2dot')) with (PI / 2)
        by (field; assumption).
      lra.
    + intros [= <-]. lra.
Qed.

(** A single integration over a nominal duration other than zero stores
    the commanded velocities. *)
Lemma update_alpha_dots_nominal (d1 d2 d : R) (m : t) :
  d = timestep m * t_interval m -> d <> 0 ->
  update_alpha_dots d1 d2 d 0 0 None m
  = Done tt (set_a2dot d2 (set_a1dot d1 m)).
Proof.
  intros Ed Hd.
  assert (Hts : timestep m <> 0) by (intros E; apply Hd; rewrite Ed, E; ring).
  assert (Hti : t_interval m <> 0)
    by (intros E; apply Hd; rewrite Ed, E; ring).
  unfold update_alpha_dots, truediv. run_monad.
  destruct (Req_dec_T (d + 0) 0) as [E0|_]; [exfalso; lra|].
  destruct Rlt_dec as [_|_];
    [destruct (Req_dec_T (t_interval m * timestep m) 0) as [E|_];
     [exfalso; apply Hd; rewrite Ed, Rmult_comm; exact E|]|];
    (f_equal; f_equal; [|f_equal]; rewrite ?Ed; field; repeat split;
     try assumption; rewrite Rplus_0_r; apply Rmult_integral_contrapositive;
     split; assumption).
Qed.

Section MoreOnMove.

Variable odeint :
  (vec -> R -> R -> R -> vec) -> vec -> list R -> R * R -> list vec.

(** X11. Whatever its outcome, a call of [move] leaves the link length,
    the viscosity constant and [t_interval] as they were, and [timestep]
    equal to the timestep count it was called with. *)
Theorem X11_move_keeps_constants_and_records_timestep
  (action : R * R) (timestep' : R) (enforce : bool) (s : t) :
  let s' := final (move odeint action timestep' enforce s) in
  L s' = L s /\ k s' = k s /\ t_interval s' = t_interval s
  /\ timestep s' = timestep'.
Proof.
  cbv zeta.
  pose proof (move_inv odeint action timestep' enforce s) as H.
  destruct (move odeint action timestep' enforce s) as [st s'|e s'];
    cbn [final].
  - destruct H as (_ & _ & v & mid & v1 & v2 & F & ->).
    pose proof (frame_trans _ _ _ F (frame_committed v enforce mid))
      as (_ & Hti & Hts & HL & Hk).
    repeat split; assumption.
  - destruct H as [(_ & _ & -> & _)|(_ & _ & (_ & Hti & Hts & HL & Hk) & _)];
      repeat split; assumption.
Qed.

(** The duration-zero call of [perform_integration] and the solver agree
    with the exact joint angles. *)
Lemma integrated_joints (action : R * R) (d : R) (s : t) :
  joint_exact odeint ->
  vec_a1 (integrated odeint action d s) = a1 s + fst action * d
  /\ vec_a2 (integrated odeint action d s) = a2 s + snd action * d.
Proof.
  intros H. destruct action as [d1 d2]. unfold integrated.
  destruct (Req_dec_T d 0) as [->|_].
  - cbn. split; ring.
  - exact (H s (body_x s, x s, y s, theta s, a1 s, a2 s) d d1 d2).
Qed.

Section ExactSolver.

Hypothesis Hexact : joint_exact odeint.

Ltac joints_of_rows :=
  repeat first
    [ rewrite a1_committed
    | rewrite a2_committed
    | match goal with
      | |- context [vec_a1 (integrated odeint ?act ?d ?m)] =>
          rewrite (proj1 (integrated_joints act d m Hexact))
      | |- context [vec_a2 (integrated odeint ?act ?d ?m)] =>
          rewrite (proj2 (integrated_joints act d m Hexact))
      end ].

Lemma move_enforced_joints (d1 d2 ts : R) (s : t) (a1_t a2_t : R) :
  in_limits s ->
  crossing_time_a1 s (a1 s + d1 * (ts * t_interval s)) d1 (ts * t_interval s)
  = Ok a1_t ->
  crossing_time_a2 s (a2 s + d2 * (ts * t_interval s)) d2 (ts * t_interval s)
  = Ok a2_t ->
  match move odeint (d1, d2) ts true s with
  | Done _ s' => (a1 s', a2 s') = enforced_joints s d1 d2 a1_t a2_t
  | Raised _ _ => True
  end.
Proof.
  intros Hin E1 E2.
  unfold move. run_monad.
  destruct (check_angles_cases (set_timestep ts s))
    as [[_ E]|[Hout _]]; [rewrite E|exfalso; apply Hout; exact Hin].
  change (crossing_time_a1 (set_timestep ts s)
            (a1 (set_timestep ts s)
             + d1 * (timestep (set_timestep ts s)
                     * t_interval (set_timestep ts s)))
            d1
            (timestep (set_timestep ts s) * t_interval (set_timestep ts s)))
    with (crossing_time_a1 s (a1 s + d1 * (ts * t_interval s)) d1
            (ts * t_interval s)).
  change (crossing_time_a2 (set_timestep ts s)
            (a2 (set_timestep ts s)
             + d2 * (timestep (set_timestep ts s)
                     * t_interval (set_timestep ts s)))
            d2
            (timestep (set_timestep ts s) * t_interval (set_timestep ts s)))
    with (crossing_time_a2 s (a2 s + d2 * (ts * t_interval s)) d2
            (ts * t_interval s)).
  rewrite E1, E2. run_monad.
  unfold enforced_joints, abs.
  destruct (Rgt_dec (Rabs (a1_t - a2_t)) 0.0000001) as [Hs|Hs];
    [destruct (Rgt_dec a2_t a1_t) as [Ho|Ho]|];
    rewrite ?perform_integration_eq; run_monad;
    rewrite ?update_params_eq; run_monad;
    rewrite ?perform_integration_eq; run_monad;
    rewrite ?update_params_eq; run_monad;
    match goal with
    | |- context [update_alpha_dots ?a ?b ?c ?d ?e ?f ?m] =>
        destruct (update_alpha_dots_cases a b c d e f m)
          as [(v1 & v2 & Eu)|[Eu _]]; rewrite Eu; [|exact I]
    end.
  - cbn [a1 a2 set_state_attr set_a1dot set_a2dot]. joints_of_rows.
    cbn [a1 a2 set_timestep fst snd].
    unfold min. destruct (Rlt_dec a2_t a1_t); [lra|]. reflexivity.
  - cbn [a1 a2 set_state_attr set_a1dot set_a2dot]. joints_of_rows.
    cbn [a1 a2 set_timestep fst snd].
    unfold min. destruct (Rlt_dec a2_t a1_t) as [_|N]; [reflexivity|].
    exfalso. revert Hs. split_abs; lra.
  - cbn [a1 a2 set_state_attr set_a1dot set_a2dot]. joints_of_rows.
    cbn [a1 a2 set_timestep fst snd].
    destruct Req_dec_T as [->|_]; reflexivity.
Qed.

End ExactSolver.

End MoreOnMove.

(** ** What a limit-enforced [move] guarantees *)

Lemma slack_bound (d2 a b : R) :
  ~ Rabs (a - b) > 0.0000001 ->
  Rabs (d2 * (a - b)) <= Rabs d2 * 0.0000001.
Proof.
  intros H. rewrite Rabs_mult.
  apply Rmult_le_compat_l; [apply Rabs_pos|lra].
Qed.

(** X12. For a solver exact on the joint channels, a limit-enforced
    [move] that starts within the limits and returns leaves the first
    joint within [[-pi/2, pi/2]]; the second joint as well whenever the
    move splits or the two crossing times are equal, and in every case to
    within the commanded second velocity times the tolerance of the split
    test. *)
Theorem X12_enforced_move_clamps_up_to_the_split_tolerance
  (odeint : (vec -> R -> R -> R -> vec) -> vec -> list R -> R * R -> list vec)
  (d1 d2 ts : R) (s : t) (a1_t a2_t : R) :
  joint_exact odeint ->
  in_limits s ->
  crossing_time_a1 s (a1 s + d1 * (ts * t_interval s)) d1 (ts * t_interval s)
  = Ok a1_t ->
  crossing_time_a2 s (a2 s + d2 * (ts * t_interval s)) d2 (ts * t_interval s)
  = Ok a2_t ->
  match move odeint (d1, d2) ts true s with
  | Done _ s' =>
      - PI / 2 <= a1 s' <= PI / 2
      /\ (Rabs (a1_t - a2_t) > 0.0000001 \/ a1_t = a2_t -> in_limits s')
      /\ - PI / 2 - Rabs d2 * 0.0000001 <= a2 s'
         <= PI / 2 + Rabs d2 * 0.0000001
  | Raised _ _ => True
  end.
Proof.
  intros Hexact Hin E1 E2. pose proof PI_bounds as HPI.
  pose proof (move_enforced_joints odeint Hexact d1 d2 ts s a1_t a2_t
                Hin E1 E2) as H.
  destruct (move odeint (d1, d2) ts true s) as [st s'|e s']; [|exact I].
  destruct Hin as [Hin1 Hin2].
  pose proof (crossing_time_a1_target _ _ _ _ Hin1 E1) as T1.
  pose proof (crossing_time_a2_target _ _ _ _ Hin2 E2) as T2.
  assert (Hpos : 0 <= Rabs d2 * 0.0000001)
    by (pose proof (Rabs_pos d2); nra).
  unfold enforced_joints in H. unfold in_limits.
  destruct (Rgt_dec (Rabs (a1_t - a2_t)) 0.0000001) as [Hs|Hs];
    [destruct (Rgt_dec a2_t a1_t) as [Ho|Ho]|];
    injection H as -> ->.
  - assert (G1 : - PI / 2 <= snap_a1 (snap_a1 (a1 s + d1 * a1_t)
                                        + 0 * (a2_t - a1_t)) <= PI / 2).
    { apply snap_a1_into_limits.
      pose proof (snap_a1_into_limits (a1 s + d1 * a1_t)). lra. }
    assert (G2 : - PI / 2 <= snap_a2 (snap_a2 (a2 s + d2 * a1_t)
                                        + d2 * (a2_t - a1_t)) <= PI / 2).
    { apply snap_a2_into_limits.
      pose proof (snap_a2_near (a2 s + d2 * a1_t)) as N.
      revert N. split_abs; lra. }
    repeat split; try tauto; lra.
  - assert (G1 : - PI / 2 <= snap_a1 (snap_a1 (a1 s + d1 * a2_t)
                                        + d1 * (a1_t - a2_t)) <= PI / 2).
    { apply snap_a1_into_limits.
      pose proof (snap_a1_near (a1 s + d1 * a2_t)) as N.
      revert N. split_abs; lra. }
    assert (G2 : - PI / 2 <= snap_a2 (snap_a2 (a2 s + d2 * a2_t)
                                        + 0 * (a1_t - a2_t)) <= PI / 2).
    { apply snap_a2_into_limits.
      pose proof (snap_a2_into_limits (a2 s + d2 * a2_t)). lra. }
    repeat split; try tauto; lra.
  - assert (G1 : - PI / 2 <= snap_a1 (a1 s + d1 * a1_t) <= PI / 2)
      by (apply snap_a1_into_limits; lra).
    split; [exact G1|]. split.
    + intros [Hgt| ->]; [contradiction|].
      split; [exact G1|]. apply snap_a2_into_limits. lra.
    + pose proof (slack_bound d2 a1_t a2_t Hs) as B.
      assert (Ex : a2 s + d2 * a1_t = a2 s + d2 * a2_t + d2 * (a1_t - a2_t))
        by ring.
      destruct (snap_a2_values (a2 s + d2 * a1_t)) as [->|[->| ->]];
        [rewrite Ex; revert B; split_abs; lra|lra|lra].
Qed.

(** The robot of the [__main__] block and its first command, with the
    Euler solver. *)
Lemma X12_witness :
  joint_exact euler_odeint /\ in_limits main_robot
  /\ match move euler_odeint (0, PI / 2) 1 true main_robot with
     | Done _ s' =>
         - PI / 2 <= a1 s' <= PI / 2
         /\ (Rabs (1 * 0.5 - 1 * 0.5) > 0.0000001 \/ 1 * 0.5 = 1 * 0.5 ->
             in_limits s')
         /\ - PI / 2 - Rabs (PI / 2) * 0.0000001 <= a2 s'
            <= PI / 2 + Rabs (PI / 2) * 0.0000001
     | Raised _ _ => True
     end.
Proof.
  assert (Hin : in_limits main_robot).
  { pose proof PI_bounds. unfold in_limits, main_robot, init, a1, a2. lra. }
  assert (E1 : crossing_time_a1 main_robot
                 (a1 main_robot + 0 * (1 * t_interval main_robot)) 0
                 (1 * t_interval main_robot) = Ok (1 * 0.5)).
  { pose proof PI_bounds. run. reflexivity. }
  assert (E2 : crossing_time_a2 main_robot
                 (a2 main_robot + PI / 2 * (1 * t_interval main_robot))
                 (PI / 2) (1 * t_interval main_robot) = Ok (1 * 0.5)).
  { pose proof PI_bounds. run. reflexivity. }
  split; [exact euler_joint_exact|]. split; [exact Hin|].
  exact (X12_enforced_move_clamps_up_to_the_split_tolerance
           euler_odeint 0 (PI / 2) 1 main_robot (1 * 0.5) (1 * 0.5)
           euler_joint_exact Hin E1 E2).
Defined.

(** ** Steps in which no limit is reached, and steps of duration zero *)

Lemma nominal_of_committed (v : vec) (b : bool) (ts : R) (s : t) :
  timestep (set_timestep ts s) * t_interval (set_timestep ts s)
  = timestep (committed v b (set_timestep ts s))
    * t_interval (committed v b (set_timestep ts s)).
Proof.
  destruct (frame_committed v b (set_timestep ts s)) as (_ & -> & -> & _).
  reflexivity.
Qed.

(** X13. With limit enforcement off and a nominal duration other than
    zero, [move] always returns: it stores exactly the commanded
    velocities and leaves both joint angles in [[-pi, pi]]; for a solver
    exact on the joint channels these are the wrapped and snapped
    endpoints [a + adot * timestep * t_interval]. *)
Theorem X13_free_move_stores_the_command
  (odeint : (vec -> R -> R -> R -> vec) -> vec -> list R -> R * R -> list vec)
  (d1 d2 ts : R) (s : t) :
  t_interval s * ts <> 0 ->
  exists s',
    move odeint (d1, d2) ts false s = Done (a1 s', a2 s') s'
    /\ a1dot s' = d1 /\ a2dot s' = d2
    /\ - PI <= a1 s' <= PI /\ - PI <= a2 s' <= PI
    /\ (joint_exact odeint ->
        a1 s' = snap_a1 (wrapped (a1 s + d1 * (ts * t_interval s)))
        /\ a2 s' = snap_a2 (wrapped (a2 s + d2 * (ts * t_interval s)))).
Proof.
  intros Hn. pose proof PI_bounds as HPI.
  assert (Hd : timestep (set_timestep ts s) * t_interval (set_timestep ts s)
               <> 0).
  { cbn [timestep t_interval set_timestep]. rewrite Rmult_comm. exact Hn. }
  unfold move. run_monad.
  rewrite perform_integration_eq. run_monad.
  rewrite update_params_eq. run_monad.
  rewrite (update_alpha_dots_nominal d1 d2 _ _
             (nominal_of_committed _ false ts s) Hd).
  match goal with |- exists s', Done _ ?m = _ /\ _ => exists m end.
  split; [reflexivity|].
  cbn [a1 a2 a1dot a2dot set_state_attr set_a1dot set_a2dot].
  rewrite a1_committed, a2_committed.
  split; [reflexivity|]. split; [reflexivity|].
  split; [|split].
  - pose proof (wrapped_range
                  (vec_a1 (integrated odeint (d1, d2)
                             (timestep (set_timestep ts s)
                              * t_interval (set_timestep ts s))
                             (set_timestep ts s)))).
    destruct (snap_a1_values
                (wrapped
                   (vec_a1 (integrated odeint (d1, d2)
                              (timestep (set_timestep ts s)
                               * t_interval (set_timestep ts s))
                              (set_timestep ts s))))) as [->|[->| ->]]; lra.
  - pose proof (wrapped_range
                  (vec_a2 (integrated odeint (d1, d2)
                             (timestep (set_timestep ts s)
                              * t_interval (set_timestep ts s))
                             (set_timestep ts s)))).
    destruct (snap_a2_values
                (wrapped
                   (vec_a2 (integrated odeint (d1, d2)
                              (timestep (set_timestep ts s)
                               * t_interval (set_timestep ts s))
                              (set_timestep ts s))))) as [->|[->| ->]]; lra.
  - intros Hexact.
    destruct (integrated_joints odeint (d1, d2)
                (timestep (set_timestep ts s)
                 * t_interval (set_timestep ts s))
                (set_timestep ts s) Hexact) as [-> ->].
    split; reflexivity.
Qed.

(** The robot of the [__main__] block, one timestep. *)
Lemma X13_witness :
  t_interval main_robot * 1 <> 0
  /\ exists s',
      move euler_odeint (0, PI / 2) 1 false main_robot = Done (a1 s', a2 s') s'
      /\ a1dot s' = 0 /\ a2dot s' = PI / 2.
Proof.
  assert (H : t_interval main_robot * 1 <> 0)
    by (unfold main_robot, init, t_interval; lra).
  split; [exact H|].
  destruct (X13_free_move_stores_the_command
              euler_odeint 0 (PI / 2) 1 main_robot H)
    as (s' & E & V1 & V2 & _).
  exists s'. repeat split; assumption.
Defined.

(** X14. A limit-enforced [move] that starts within the limits, with a
    nominal duration other than zero and both endpoints
    [a + adot * timestep * t_interval] within the limits, returns; it
    stores exactly the commanded velocities and, for a solver exact on the
    joint channels, leaves the joints at the snapped endpoints, within the
    limits. *)
Theorem X14_enforced_step_inside_the_limits
  (odeint : (vec -> R -> R -> R -> vec) -> vec -> list R -> R * R -> list vec)
  (d1 d2 ts : R) (s : t) :
  joint_exact odeint ->
  in_limits s ->
  t_interval s * ts <> 0 ->
  - PI / 2 <= a1 s + d1 * (ts * t_interval s) <= PI / 2 ->
  - PI / 2 <= a2 s + d2 * (ts * t_interval s) <= PI / 2 ->
  exists s',
    move odeint (d1, d2) ts true s = Done (a1 s', a2 s') s'
    /\ a1dot s' = d1 /\ a2dot s' = d2
    /\ a1 s' = snap_a1 (a1 s + d1 * (ts * t_interval s))
    /\ a2 s' = snap_a2 (a2 s + d2 * (ts * t_interval s))
    /\ in_limits s'.
Proof.
  intros Hexact Hin Hn H1 H2. pose proof PI_bounds as HPI.
  assert (Hd : timestep (set_timestep ts s) * t_interval (set_timestep ts s)
               <> 0).
  { cbn [timestep t_interval set_timestep]. rewrite Rmult_comm. exact Hn. }
  unfold move. run_monad.
  destruct (check_angles_cases (set_timestep ts s))
    as [[_ E]|[Hout _]]; [rewrite E|exfalso; apply Hout; exact Hin].
  unfold crossing_time_a1, crossing_time_a2.
  cbn [a1 a2 timestep t_interval set_timestep].
  destruct Rlt_dec; [lra|]. destruct Rgt_dec; [lra|].
  destruct Rlt_dec; [lra|]. destruct Rgt_dec; [lra|].
  run_monad. unfold abs.
  destruct Rgt_dec as [B|_]; [revert B; split_abs; lra|].
  destruct Req_dec_T as [_|N]; [|exfalso; apply N; reflexivity].
  rewrite perform_integration_eq. run_monad.
  rewrite update_params_eq. run_monad.
  rewrite (update_alpha_dots_nominal d1 d2 _ _
             (nominal_of_committed _ true ts s) Hd).
  match goal with |- exists s', Done _ ?m = _ /\ _ => exists m end.
  split; [reflexivity|].
  unfold in_limits.
  cbn [a1 a2 a1dot a2dot set_state_attr set_a1dot set_a2dot].
  rewrite a1_committed, a2_committed.
  destruct (integrated_joints odeint (d1, d2) (ts * t_interval s)
              (set_timestep ts s) Hexact) as [-> ->].
  cbn [a1 a2 set_timestep fst snd].
  repeat split; try reflexivity;
    first [apply snap_a1_into_limits|apply snap_a2_into_limits]; lra.
Qed.

(** The robot of the [__main__] block and its first command. *)
Lemma X14_witness :
  joint_exact euler_odeint /\ in_limits main_robot
  /\ t_interval main_robot * 1 <> 0
  /\ exists s',
      move euler_odeint (0, PI / 2) 1 true main_robot = Done (a1 s', a2 s') s'
      /\ a1dot s' = 0 /\ a2dot s' = PI / 2 /\ in_limits s'.
Proof.
  assert (Hin : in_limits main_robot).
  { pose proof PI_bounds. unfold in_limits, main_robot, init, a1, a2. lra. }
  assert (Hn : t_interval main_robot * 1 <> 0)
    by (unfold main_robot, init, t_interval; lra).
  assert (H1 : - PI / 2 <= a1 main_robot + 0 * (1 * t_interval main_robot)
               <= PI / 2).
  { pose proof PI_bounds. unfold main_robot, init, a1, t_interval. lra. }
  assert (H2 : - PI / 2
               <= a2 main_robot + PI / 2 * (1 * t_interval main_robot)
               <= PI / 2).
  { pose proof PI_bounds. unfold main_robot, init, a2, t_interval. lra. }
  split; [exact euler_joint_exact|]. split; [exact Hin|]. split; [exact Hn|].
  destruct (X14_enforced_step_inside_the_limits
              euler_odeint 0 (PI / 2) 1 main_robot
              euler_joint_exact Hin Hn H1 H2)
    as (s' & E & V1 & V2 & _ & _ & Hl).
  exists s'. repeat split; try assumption; apply Hl.
Defined.

(** X15. A call of [move] whose nominal duration [timestep * t_interval]
    is zero while [t_interval + timestep] is positive, as with
    [timestep = 0], raises [ZeroDivisionError] (after the limit test, when
    enforcement is on): the update is committed with the position
    unchanged, the heading wrapped and the joint angles snapped, and the
    division by the nominal duration fails before the velocities or the
    stored pair are written. *)
Theorem X15_zero_nominal_duration_raises
  (odeint : (vec -> R -> R -> R -> vec) -> vec -> list R -> R * R -> list vec)
  (action : R * R) (ts : R) (enforce : bool) (s : t) :
  ts * t_interval s = 0 ->
  0 < t_interval s + ts ->
  (enforce = true -> in_limits s) ->
  exists s',
    move odeint action ts enforce s = Raised ZeroDivisionError s'
    /\ body_x s' = body_x s /\ x s' = x s /\ y s' = y s
    /\ theta s' = wrapped (theta s)
    /\ a1 s' = snap_a1 (if enforce then a1 s else wrapped (a1 s))
    /\ a2 s' = snap_a2 (if enforce then a2 s else wrapped (a2 s))
    /\ a1dot s' = a1dot s /\ a2dot s' = a2dot s /\ state s' = state s.
Proof.
  destruct action as [d1 d2], s as [bx0 x0 y0 th0 j1 j2 r1 r2 tm ti ts0 l0 k0 st0].
  cbn [t_interval]. intros Hz Hpos Hin.
  assert (Hz' : ti * ts = 0) by (rewrite Rmult_comm; exact Hz).
  pose proof PI_bounds as HPI.
  destruct enforce.
  - destruct (Hin eq_refl) as [Hin1 Hin2]. cbn [a1 a2] in Hin1, Hin2.
    unfold_methods; rewrite ?Hz, ?Hz';
      repeat (decide_step; unfold_methods; rewrite ?Hz, ?Hz');
      (eexists; split; [reflexivity|]; repeat split).
  - unfold_methods; rewrite ?Hz, ?Hz';
      repeat (decide_step; unfold_methods; rewrite ?Hz, ?Hz');
      (eexists; split; [reflexivity|]; repeat split).
Qed.

(** The robot built with default arguments, moved for a timestep count of
    zero. *)
Lemma X15_witness :
  0 * t_interval default = 0 /\ 0 < t_interval default + 0
  /\ exists s',
      move euler_odeint (0, 1) 0 true default = Raised ZeroDivisionError s'
      /\ x s' = x default /\ y s' = y default.
Proof.
  assert (Hz : 0 * t_interval default = 0) by ring.
  assert (Hp : 0 < t_interval default + 0)
    by (unfold default, init, t_interval; lra).
  assert (Hin : true = true -> in_limits default).
  { intros _. pose proof PI_bounds.
    unfold in_limits, default, init, a1, a2. lra. }
  split; [exact Hz|]. split; [exact Hp|].
  destruct (X15_zero_nominal_duration_raises
              euler_odeint (0, 1) 0 true default Hz Hp Hin)
    as (s' & E & _ & Ex & Ey & _).
  exists s'. repeat split; assumption.
Defined.

(** X16. From within the limits and for a positive nominal duration,
    neither crossing time exceeds the nominal duration; the crossing time
    of the first joint is not negative when that joint starts at or below
    zero, and that of the second when it starts at or above zero. *)
Theorem X16_crossing_times_within_the_nominal_duration
  (s : t) (d1 d2 ts a1_t a2_t : R) :
  in_limits s ->
  0 < ts * t_interval s ->
  crossing_time_a1 s (a1 s + d1 * (ts * t_interval s)) d1 (ts * t_interval s)
  = Ok a1_t ->
  crossing_time_a2 s (a2 s + d2 * (ts * t_interval s)) d2 (ts * t_interval s)
  = Ok a2_t ->
  a1_t <= ts * t_interval s /\ a2_t <= ts * t_interval s
  /\ (a1 s <= 0 -> 0 <= a1_t) /\ (0 <= a2 s -> 0 <= a2_t).
Proof.
  intros [Hin1 Hin2] Hpos. pose proof PI_bounds as HPI.
  set (d := ts * t_interval s) in *.
  unfold crossing_time_a1, crossing_time_a2, truediv.
  intros E1 E2.
  assert (G1 : a1_t <= d /\ (a1 s <= 0 -> 0 <= a1_t)).
  { clear E2. revert E1.
    destruct Rlt_dec as [Hlo|Hlo];
      [|destruct Rgt_dec as [Hhi|Hhi]; [|intros [= <-]; lra]];
      (destruct (Req_dec_T d1 0) as [Z|NZ]; [discriminate|]);
      intros [= <-].
    - set (q := (- PI / 2 - a1 s) / d1).
      assert (Eq : q * d1 = - PI / 2 - a1 s) by (unfold q; field; exact NZ).
      assert (d1 < 0) by nra. split; [nra|intros _; nra].
    - set (q := (0 - a1 s) / d1).
      assert (Eq : q * d1 = 0 - a1 s) by (unfold q; field; exact NZ).
      assert (0 < d1) by nra. split; [nra|intros ?; nra]. }
  assert (G2 : a2_t <= d /\ (0 <= a2 s -> 0 <= a2_t)).
  { clear E1. revert E2.
    destruct Rlt_dec as [Hlo|Hlo];
      [|destruct Rgt_dec as [Hhi|Hhi]; [|intros [= <-]; lra]];
      (destruct (Req_dec_T d2 0) as [Z|NZ]; [discriminate|]);
      intros [= <-].
    - set (q := (0 - a2 s) / d2).
      assert (Eq : q * d2 = 0 - a2 s) by (unfold q; field; exact NZ).
      assert (d2 < 0) by nra. split; [nra|intros ?; nra].
    - set (q := (PI / 2 - a2 s) / d2).
      assert (Eq : q * d2 = PI / 2 - a2 s) by (unfold q; field; exact NZ).
      assert (0 < d2) by nra. split; [nra|intros _; nra]. }
  tauto.
Qed.

(** The robot of the [__main__] block, commanded beyond both limits. *)
Lemma X16_witness :
  in_limits main_robot /\ 0 < 1 * t_interval main_robot
  /\ (- PI / 2 - a1 main_robot) / -4 <= 1 * t_interval main_robot
  /\ (PI / 2 - a2 main_robot) / 4 <= 1 * t_interval main_robot.
Proof.
  assert (Hin : in_limits main_robot).
  { pose proof PI_bounds. unfold in_limits, main_robot, init, a1, a2. lra. }
  assert (Hp : 0 < 1 * t_interval main_robot)
    by (unfold main_robot, init, t_interval; lra).
  assert (E1 : crossing_time_a1 main_robot
                 (a1 main_robot + -4 * (1 * t_interval main_robot)) (-4)
                 (1 * t_interval main_robot)
               = Ok ((- PI / 2 - a1 main_robot) / -4)).
  { pose proof PI_bounds. run. reflexivity. }
  assert (E2 : crossing_time_a2 main_robot
                 (a2 main_robot + 4 * (1 * t_interval main_robot)) 4
                 (1 * t_interval main_robot)
               = Ok ((PI / 2 - a2 main_robot) / 4)).
  { pose proof PI_bounds. run. reflexivity. }
  split; [exact Hin|]. split; [exact Hp|].
  destruct (X16_crossing_times_within_the_nominal_duration
              main_robot (-4) 4 1 _ _ Hin Hp E1 E2) as (B1 & B2 & _).
  split; assumption.
Defined.

(** ** More on the discretization utility *)

Lemma discretize_closed_form (v i : R) :
  i <> 0 ->
  DeepRobot.discretize v i = Ok (IZR (Zfloor (v / i + 0.5)) * i).
Proof.
  intros Hi. unfold DeepRobot.discretize, truediv, math_floor.
  destruct (Req_dec_T i 0) as [E|_]; [contradiction|].
  destruct (Zfloor_bound (v / i)) as [Hlo Hhi].
  destruct Rge_dec as [Hge|Hlt]; do 3 f_equal; symmetry; apply Zfloor_eq.
  - rewrite plus_IZR. lra.
  - lra.
Qed.

(** X17. [discretize] raises [ZeroDivisionError] for the interval zero
    and for no other; for every other interval, negative ones included, it
    returns a whole multiple of the interval at most half an interval away
    from the value, and returns a multiple of the interval unchanged. *)
Theorem X17_discretize_on_any_interval (v i : R) :
  (i = 0 -> DeepRobot.discretize v i = Err ZeroDivisionError)
  /\ (i <> 0 ->
      exists n : Z,
        DeepRobot.discretize v i = Ok (IZR n * i)
        /\ Rabs (IZR n * i - v) <= Rabs i / 2
        /\ DeepRobot.discretize (IZR n * i) i = Ok (IZR n * i)).
Proof.
  split.
  - intros ->. unfold DeepRobot.discretize, truediv.
    destruct (Req_dec_T 0 0) as [_|N]; [reflexivity|contradiction].
  - intros Hi. exists (Zfloor (v / i + 0.5)).
    split; [apply discretize_closed_form; exact Hi|]. split.
    + destruct (Zfloor_bound (v / i + 0.5)) as [Hlo Hhi].
      replace (IZR (Zfloor (v / i + 0.5)) * i - v)
        with ((IZR (Zfloor (v / i + 0.5)) - v / i) * i) by (field; exact Hi).
      rewrite Rabs_mult. unfold Rdiv. rewrite (Rmult_comm (Rabs i)).
      apply Rmult_le_compat_r; [apply Rabs_pos|].
      split_abs; lra.
    + rewrite discretize_closed_form by exact Hi.
      do 3 f_equal. apply Zfloor_eq.
      replace (IZR (Zfloor (v / i + 0.5)) * i / i)
        with (IZR (Zfloor (v / i + 0.5))) by (field; exact Hi).
      lra.
Qed.

(** The value [0.7] on the interval [-0.5]. *)
Lemma X17_witness :
  -0.5 <> 0
  /\ exists n : Z,
      DeepRobot.discretize 0.7 (-0.5) = Ok (IZR n * -0.5)
      /\ Rabs (IZR n * -0.5 - 0.7) <= Rabs (-0.5) / 2.
Proof.
  assert (H : -0.5 <> 0) by lra.
  split; [exact H|].
  destruct (proj2 (X17_discretize_on_any_interval 0.7 (-0.5)) H)
    as (n & E & B & _).
  exists n. split; assumption.
Defined.

(** X18. For an interval other than zero [discretize] computes
    [floor(v / i + 1/2) * i]; it commutes with shifting the value by whole
    multiples of the interval, and for a positive interval it is
    monotone. *)
Theorem X18_discretize_shifts_and_is_monotone (v w i : R) (k : Z) :
  i <> 0 ->
  DeepRobot.discretize v i = Ok (IZR (Zfloor (v / i + 0.5)) * i)
  /\ DeepRobot.discretize (v + IZR k * i) i
     = Ok (IZR (Zfloor (v / i + 0.5)) * i + IZR k * i)
  /\ (0 < i -> v <= w ->
      IZR (Zfloor (v / i + 0.5)) * i <= IZR (Zfloor (w / i + 0.5)) * i).
Proof.
  intros Hi. split; [apply discretize_closed_form; exact Hi|]. split.
  - rewrite discretize_closed_form by exact Hi.
    replace ((v + IZR k * i) / i + 0.5) with (v / i + 0.5 + IZR k)
      by (field; exact Hi).
    rewrite Zfloor_addz, plus_IZR. f_equal. ring.
  - intros Hpos Hvw.
    apply Rmult_le_compat_r; [lra|]. apply IZR_le, Zfloor_le.
    apply Rplus_le_compat_r. unfold Rdiv.
    apply Rmult_le_compat_r; [|exact Hvw].
    left. apply Rinv_0_lt_compat. exact Hpos.
Qed.

(** Two values on the interval [0.5]. *)
Lemma X18_witness :
  0.5 <> 0 /\ 0 < 0.5 /\ 0.7 <= 1.3
  /\ IZR (Zfloor (0.7 / 0.5 + 0.5)) * 0.5
     <= IZR (Zfloor (1.3 / 0.5 + 0.5)) * 0.5.
Proof.
  assert (H : 0.5 <> 0) by lra.
  assert (Hp : 0 < 0.5) by lra.
  assert (Hv : 0.7 <= 1.3) by lra.
  split; [exact H|]. split; [exact Hp|]. split; [exact Hv|].
  exact (proj2 (proj2 (X18_discretize_shifts_and_is_monotone
                         0.7 1.3 0.5 0 H)) Hp Hv).
Defined.

(** ** The velocity field of [DeepRobot] *)

Lemma D_inverse_equal_angles (self : DeepRobot.t) (a : R) :
  DeepRobotKinematics.D_inverse self a a = Err ZeroDivisionError.
Proof.
  unfold DeepRobotKinematics.D_inverse, truediv.
  destruct (Req_dec_T (DeepRobot.R_ self) 0) as [E|NE]; [reflexivity|].
  cbv zeta. destruct Req_dec_T as [_|N]; [reflexivity|].
  exfalso. apply N. replace (a - a) with 0 by ring.
  rewrite sin_0. ring.
Qed.

(** X19. [D_inverse] raises [ZeroDivisionError] whenever the two joint
    angles are equal, whatever the link length; when it returns, the link
    length is not zero and the value is the inverse of
    [(2/R) * (-sin a1 - sin (a1 - a2) + sin a2)]. *)
Theorem X19_D_inverse_is_singular_on_equal_angles
  (self : DeepRobot.t) (a1 a2 : R) :
  DeepRobotKinematics.D_inverse self a1 a1 = Err ZeroDivisionError
  /\ match DeepRobotKinematics.D_inverse self a1 a2 with
     | Ok r =>
         DeepRobot.R_ self <> 0
         /\ r * (2 / DeepRobot.R_ self
                 * (- sin a1 - sin (a1 - a2) + sin a2)) = 1
     | Err e => e = ZeroDivisionError
     end.
Proof.
  split; [apply D_inverse_equal_angles|].
  unfold DeepRobotKinematics.D_inverse, truediv.
  destruct (Req_dec_T (DeepRobot.R_ self) 0) as [E|NE]; [reflexivity|].
  cbv zeta. destruct Req_dec_T as [_|N]; [reflexivity|].
  split; [exact NE|]. field. split; [exact NE|].
  intros Z. apply N. rewrite Z. ring.
Qed.

(** X20. When [M] of [DeepRobot] returns, the inertial linear velocity
    points along the heading, [xdot * sin theta = ydot * cos theta], and
    the last two components are the commanded joint velocities; the only
    exception it raises is [ZeroDivisionError], and it raises it whenever
    the two joint angles are equal. *)
Theorem X20_DeepRobot_velocity_follows_the_heading
  (self : DeepRobot.t) (theta a1 a2 da1 da2 : R) :
  match DeepRobotKinematics.M self theta a1 a2 da1 da2 with
  | Ok (xdot, ydot, thetadot, j1, j2) =>
      xdot * sin theta = ydot * cos theta /\ j1 = da1 /\ j2 = da2
  | Err e => e = ZeroDivisionError
  end
  /\ DeepRobotKinematics.M self theta a1 a1 da1 da2 = Err ZeroDivisionError.
Proof.
  split.
  - unfold DeepRobotKinematics.M, DeepRobotKinematics.D_inverse,
      DeepRobotKinematics.A, truediv.
    destruct (Req_dec_T (DeepRobot.R_ self) 0) as [E|NE]; [reflexivity|].
    cbv zeta. destruct Req_dec_T as [_|N]; [reflexivity|].
    cbn. repeat split. ring.
  - unfold DeepRobotKinematics.M.
    rewrite D_inverse_equal_angles.
    reflexivity.
Qed.

(** ** The stored velocities, and when an enforced [move] returns *)

(** X21. For a nominal duration other than zero and sub-step durations
    whose sum is not zero, [update_alpha_dots] writes the two velocities
    only, and each stored velocity is the commanded displacement
    [t1 * adot1 + t2 * adot2] divided by a duration: the nominal duration
    [t_interval * timestep] when [t1 + t2 < t_interval + timestep], the
    integrated duration [t1 + t2] otherwise. *)
Theorem X21_stored_velocity_is_displacement_over_duration
  (a1dot1 a2dot1 t1 a1dot2 a2dot2 t2 : R) (s : t) :
  t_interval s * timestep s <> 0 ->
  t1 + t2 <> 0 ->
  exists v1 v2,
    update_alpha_dots a1dot1 a2dot1 t1 a1dot2 a2dot2 (Some t2) s
    = Done tt (set_a2dot v2 (set_a1dot v1 s))
    /\ (t1 + t2 < t_interval s + timestep s ->
        v1 * (t_interval s * timestep s) = t1 * a1dot1 + t2 * a1dot2
        /\ v2 * (t_interval s * timestep s) = t1 * a2dot1 + t2 * a2dot2)
    /\ (~ t1 + t2 < t_interval s + timestep s ->
        v1 * (t1 + t2) = t1 * a1dot1 + t2 * a1dot2
        /\ v2 * (t1 + t2) = t1 * a2dot1 + t2 * a2dot2).
Proof.
  intros Hn Hd.
  assert (Hti : t_interval s <> 0) by (intros E; apply Hn; rewrite E; ring).
  assert (Hts : timestep s <> 0) by (intros E; apply Hn; rewrite E; ring).
  unfold update_alpha_dots, truediv. run_monad.
  destruct (Rlt_dec (t1 + t2) (t_interval s + timestep s)) as [Hlt|Hge].
  - destruct (Req_dec_T (t_interval s * timestep s) 0) as [E|_];
      [contradiction|].
    destruct (Req_dec_T (t1 + t2) 0) as [E|_]; [contradiction|].
    eexists; eexists. split; [reflexivity|]. split; [|intros N; contradiction].
    intros _. split; field; auto.
  - destruct (Req_dec_T (t1 + t2) 0) as [E|_]; [contradiction|].
    eexists; eexists. split; [reflexivity|]. split; [intros N; contradiction|].
    intros _. split; field; auto.
Qed.

(** The robot built with default arguments, a split step of durations
    [0.1] and [0.1]. *)
Lemma X21_witness :
  t_interval default * timestep default <> 0 /\ 0.1 + 0.1 <> 0
  /\ exists v1 v2,
      update_alpha_dots 1 2 0.1 0 2 (Some 0.1) default
      = Done tt (set_a2dot v2 (set_a1dot v1 default))
      /\ v1 * (t_interval default * timestep default) = 0.1 * 1 + 0.1 * 0.
Proof.
  assert (Hn : t_interval default * timestep default <> 0)
    by (unfold default, init, t_interval, timestep; lra).
  assert (Hd : 0.1 + 0.1 <> 0) by lra.
  assert (Hlt : 0.1 + 0.1 < t_interval default + timestep default)
    by (unfold default, init, t_interval, timestep; lra).
  split; [exact Hn|]. split; [exact Hd|].
  destruct (X21_stored_velocity_is_displacement_over_duration
              1 2 0.1 0 2 0.1 default Hn Hd) as (v1 & v2 & E & S & _).
  exists v1, v2. split; [exact E|]. exact (proj1 (S Hlt)).
Defined.

(** X22. A limit-enforced [move] that starts within the limits with a
    nominal duration other than zero returns, whatever the solver and the
    command; with the limits violated it raises before integrating. *)
Theorem X22_enforced_move_returns_from_within_limits
  (odeint : (vec -> R -> R -> R -> vec) -> vec -> list R -> R * R -> list vec)
  (action : R * R) (ts : R) (s : t) :
  t_interval s * ts <> 0 ->
  (in_limits s ->
   exists s', move odeint action ts true s = Done (a1 s', a2 s') s')
  /\ (~ in_limits s ->
      exists e, move odeint action ts true s = Raised e (set_timestep ts s)).
Proof.
  intros Hn.
  pose proof (move_inv odeint action ts true s) as H.
  destruct (move odeint action ts true s) as [st s'|e s'].
  - destruct H as (Hin & -> & v & mid & v1 & v2 & _ & ->).
    split.
    + intros _.
      match goal with |- exists s', Done _ ?m = _ => exists m end.
      reflexivity.
    + intros Hout. exfalso. exact (Hout (Hin eq_refl)).
  - destruct H as [(_ & Hout & -> & _)|(_ & Hz & _)]; [|contradiction].
    split.
    + intros Hin. contradiction.
    + intros _. eexists. reflexivity.
Qed.

(** The robot of the [__main__] block and its first command. *)
Lemma X22_witness :
  t_interval main_robot * 1 <> 0 /\ in_limits main_robot
  /\ exists s',
      move euler_odeint (0, PI / 2) 1 true main_robot = Done (a1 s', a2 s') s'.
Proof.
  assert (Hn : t_interval main_robot * 1 <> 0)
    by (unfold main_robot, init, t_interval; lra).
  assert (Hin : in_limits main_robot).
  { pose proof PI_bounds. unfold in_limits, main_robot, init, a1, a2. lra. }
  split; [exact Hn|]. split; [exact Hin|].
  exact (proj1 (X22_enforced_move_returns_from_within_limits
                  euler_odeint (0, PI / 2) 1 main_robot Hn) Hin).
Defined.
